(** * Confidence-budgeted top-k sampling ([prediktor.prediction.confidence])

    A shallow embedding of [generate] and [confidence_loss] from
    [src/prediktor/prediction/confidence.py], together with the facts the
    design document states about them.

    Tensor arithmetic is read in exact real numbers: scores, probabilities
    and the confidence are values of [R], so rounding, infinities and NaN are
    outside the model.  The one place where the program leaves the reals on a
    finite input (division of the scores by a zero temperature) is modelled
    explicitly, see [scaled].

    The process-wide objects the function touches ([Config], the torch random
    generator) are threaded through every call as a [Process] value; a ghost
    counter records how often the scoring model was run.

    The later parts embed the other programs of the repository: the
    windows and targets of the training set and the cached vocabulary
    ([src/model.py]), the masked suggestions ([src/prediction.py]) and the
    tokens of [utils/csv-extract.py]. *)

From Stdlib Require Import String Reals Lra Lia ZArith Bool Arith List Sorted
  Permutation.
Import ListNotations.

Open Scope R_scope.

(** ** The torch operations used by [generate] *)

Module Torch.

(** [tensor.sum()] of a one-dimensional tensor. *)
Definition sum (t : list R) : R := fold_right Rplus 0 t.

(** One insertion step of a stable sort by descending score: the new entry
    goes in front of the first entry whose score is not larger. *)
Fixpoint insert_desc (x : R * nat) (l : list (R * nat)) : list (R * nat) :=
  match l with
  | [] => [x]
  | y :: l' =>
      if Rlt_dec (fst x) (fst y) then y :: insert_desc x l' else x :: y :: l'
  end.

Definition sort_desc (l : list (R * nat)) : list (R * nat) :=
  fold_right insert_desc [] l.

(** The entries of a tensor paired with their positions. *)
Definition enumerate (t : list R) : list (R * nat) :=
  combine t (seq 0 (length t)).

(** [torch.topk(t, k)]: the [k] largest entries in descending order, with the
    positions they came from ([.values], [.indices]); among equal scores the
    lower position comes first.  torch raises [RuntimeError] when [k] is
    negative or exceeds the size of the tensor: [None]. *)
Definition topk (t : list R) (k : Z) : option (list R * list nat) :=
  if ((k <? 0) || (Z.of_nat (length t) <? k))%Z then None
  else
    let top := firstn (Z.to_nat k) (sort_desc (enumerate t)) in
    Some (map fst top, map snd top).

(** [torch.softmax(t, dim=-1)]. *)
Definition softmax (t : list R) : list R :=
  map (fun x => exp x / sum (map exp t)) t.

(** [values / temperature].  Dividing a non-empty tensor by zero gives
    entries that are infinite or NaN, which no real number stands for:
    [None].  An empty tensor stays empty whatever the divisor. *)
Definition scaled (values : list R) (temperature : R) : option (list R) :=
  match values with
  | [] => Some []
  | _ :: _ =>
      if Req_dec_T temperature 0 then None
      else Some (map (fun v => v / temperature) values)
  end.

(** Inverse-CDF choice: the position whose cumulative probability first
    exceeds the uniform variate [u] (the last position when none does). *)
Fixpoint pick (u : R) (p : list R) : nat :=
  match p with
  | [] => O
  | x :: rest =>
      match rest with
      | [] => O
      | _ :: _ => if Rlt_dec u x then O else S (pick (u - x) rest)
      end
  end.

(** Non-increasing order of a one-dimensional tensor. *)
Definition descending (t : list R) : Prop :=
  Sorted (fun a b => b <= a) t.

End Torch.

(** ** What [generate] imports *)

(** Modelled from the spec: [prediktor/config.py] is not part of the sources
    at hand.  [Config] is the class whose attributes [generate] reads
    ([max_length], [top_k], [temperature]) and updates ([confidence]); the
    design document lists the same fields as [max_new_tokens], [top_k],
    [temperature] and [initial_confidence]. *)
Record Config : Type := mkConfig {
  max_length : Z;
  top_k : Z;
  temperature : R;
  confidence : R
}.

(** The names imported from [prediktor.model] and the random source behind
    [torch.multinomial]. *)
Class Runtime : Type := {
  Rng : Type;
  (** one uniform variate in [[0, 1)] and the advanced generator *)
  uniform : Rng -> R * Rng;
  (** [model(input_ids).logits[-1, :]] *)
  model : list nat -> list R;
  (** [tokenizer.encode(input, return_tensors="pt")[0]] *)
  encode : string -> list nat;
  (** [tokenizer.decode(ids, skip_special_tokens=True)] *)
  decode : list nat -> string;
  eos_token_id : nat
}.

Inductive exn : Type :=
| RuntimeError          (* raised by torch *)
| IndexError            (* indexing a tensor out of range *)
| InvalidConfiguration. (* named by the design document *)

(** Results of running a piece of the program: a value, an exception, or a
    loop that was cut off because the fuel of the embedding ran out (which
    [generate_ids_total] rules out for [generate]). *)
Inductive Res (A : Type) : Type :=
| Ok (a : A)
| Raise (e : exn)
| OutOfFuel.
Arguments Ok {A} a.
Arguments Raise {A} e.
Arguments OutOfFuel {A}.

(** The way the [while] loop was left. *)
Inductive Exit : Type :=
| BudgetBreak    (* [break] at line 30 *)
| EosBreak       (* [break] at line 35 *)
| ConditionFalse (* the loop condition at line 19 failed *).

(** ** [confidence_loss] *)

Definition confidence_loss (probabilities : list R) : R :=
  let prob_sum := Torch.sum (firstn 3 probabilities) in
  1 - prob_sum ^ 2.

(** ** The penalty as the design document words it

    "penalty = 1 - (sum of the top-3 probabilities)^2 (if K < 3, sum over all
    available candidates)": the three largest probabilities are found here
    by sorting, not by their position in the tensor. *)

Module Design.

Definition top3 (probabilities : list R) : list R :=
  firstn 3 (map fst (Torch.sort_desc (Torch.enumerate probabilities))).

Definition penalty (probabilities : list R) : R :=
  1 - Torch.sum (top3 probabilities) ^ 2.

End Design.

Section Generation.

Context {RT : Runtime}.

(** The state that outlives a call. *)
Record Process : Type := mkProcess {
  config : Config;
  generator : Rng;
  scorer_calls : nat
}.

Definition set_confidence (w : Process) (c : R) : Process :=
  {| config := {| max_length := max_length (config w);
                  top_k := top_k (config w);
                  temperature := temperature (config w);
                  confidence := c |};
     generator := generator w;
     scorer_calls := scorer_calls w |}.

Definition set_generator (w : Process) (g : Rng) : Process :=
  {| config := config w; generator := g; scorer_calls := scorer_calls w |}.

Definition count_call (w : Process) : Process :=
  {| config := config w; generator := generator w;
     scorer_calls := S (scorer_calls w) |}.

(** [torch.multinomial(probabilities, num_samples=1)]; an empty tensor is
    rejected with [RuntimeError]. *)
Definition multinomial (g : Rng) (probabilities : list R) : option (nat * Rng) :=
  match probabilities with
  | [] => None
  | _ :: _ => let (u, g') := uniform g in Some (Torch.pick u probabilities, g')
  end.

(** What one run of the loop body (lines 21-36) leads to. *)
Inductive Outcome : Type :=
| Next (input_ids : list nat) (w : Process)
| Break (how : Exit) (input_ids : list nat) (w : Process)
| Throw (e : exn).

Definition body (input_ids : list nat) (w : Process) : Outcome :=
  let logits := model input_ids in
  let w := count_call w in
  match Torch.topk logits (top_k (config w)) with
  | None => Throw RuntimeError
  | Some (values, indices) =>
      match Torch.scaled values (temperature (config w)) with
      | None =>
          (* the probabilities and the confidence are NaN: [NaN < 0] is
             false and torch.multinomial rejects the tensor *)
          Throw RuntimeError
      | Some scores =>
          let probabilities := Torch.softmax scores in
          let w := set_confidence w
                     (confidence (config w) - confidence_loss probabilities) in
          if Rlt_dec (confidence (config w)) 0 then Break BudgetBreak input_ids w
          else
            match multinomial (generator w) probabilities with
            | None => Throw RuntimeError
            | Some (next_token_index, g') =>
                let w := set_generator w g' in
                match nth_error indices next_token_index with
                | None => Throw IndexError
                | Some next_token =>
                    if Nat.eqb next_token eos_token_id
                    then Break EosBreak input_ids w
                    else Next (input_ids ++ [next_token]) w
                end
            end
      end
  end.

(** The attributes of [Config] that [generate] only reads. *)
Definition same_settings (c c' : Config) : Prop :=
  max_length c' = max_length c /\ top_k c' = top_k c /\
  temperature c' = temperature c.

(** The pipeline of lines 21-26: the probabilities and the vocabulary
    positions they belong to. *)
Definition distribution (input_ids : list nat) (c : Config)
  : option (list R * list nat) :=
  match Torch.topk (model input_ids) (top_k c) with
  | None => None
  | Some (values, indices) =>
      match Torch.scaled values (temperature c) with
      | None => None
      | Some scores => Some (Torch.softmax scores, indices)
      end
  end.

(** Everything a run of the loop body can do, by outcome. *)
Definition body_post (input_ids : list nat) (w : Process) (o : Outcome) : Prop :=
  match o with
  | Next input_ids' w' =>
      (exists next_token,
          input_ids' = input_ids ++ [next_token] /\
          next_token <> eos_token_id) /\
      same_settings (config w) (config w') /\
      scorer_calls w' = S (scorer_calls w) /\
      0 <= confidence (config w') <= confidence (config w)
  | Break how input_ids' w' =>
      input_ids' = input_ids /\
      same_settings (config w) (config w') /\
      scorer_calls w' = S (scorer_calls w) /\
      confidence (config w') <= confidence (config w) /\
      match how with
      | BudgetBreak =>
          confidence (config w') < 0 /\ generator w' = generator w
      | EosBreak => 0 <= confidence (config w')
      | ConditionFalse => False
      end
  | Throw e => e <> InvalidConfiguration
  end.

(** The [while] loop of lines 19-36. *)
Fixpoint while_loop (fuel : nat) (max_total_length : Z)
    (input_ids : list nat) (w : Process) : Res (Exit * list nat * Process) :=
  match fuel with
  | O => OutOfFuel
  | S fuel' =>
      if (Z.of_nat (length input_ids) <? max_total_length)%Z then
        match body input_ids w with
        | Next input_ids' w' => while_loop fuel' max_total_length input_ids' w'
        | Break how input_ids' w' => Ok (how, input_ids', w')
        | Throw e => Raise e
        end
      else Ok (ConditionFalse, input_ids, w)
  end.

(** What a call that returns has produced: the tokens behind the prompt, the
    exit that was taken and the process state it leaves. *)
Record Generated : Type := mkGenerated {
  how_left : Exit;
  generated_ids : list nat;
  after : Process
}.

(** Lines 15-38 of [generate], on token ids. *)
Definition generate_ids (input_ids : list nat) (w : Process) : Res Generated :=
  let original_length := length input_ids in
  let max_total_length :=
    (Z.of_nat (length input_ids) + max_length (config w))%Z in
  match while_loop (S (Z.to_nat (max_length (config w))))
                   max_total_length input_ids w with
  | Ok (how, input_ids', w') =>
      Ok {| how_left := how;
            generated_ids := skipn original_length input_ids';
            after := w' |}
  | Raise e => Raise e
  | OutOfFuel => OutOfFuel
  end.

(** [generate(input)]: the returned text and the process state afterwards. *)
Definition generate (input : string) (w : Process) : Res (string * Process) :=
  match generate_ids (encode input) w with
  | Ok g => Ok (decode (generated_ids g), after g)
  | Raise e => Raise e
  | OutOfFuel => OutOfFuel
  end.

End Generation.

Arguments Process : clear implicits.
Arguments Process {RT}.

(** Two process states that differ at most in the ghost call counter. *)
Definition same_process {RT : Runtime} (w1 w2 : Process) : Prop :=
  config w1 = config w2 /\ generator w1 = generator w2.

(** The ranges the design document gives for the configuration, for a
    vocabulary of [vocabulary_size] entries. *)
Definition valid_config (c : Config) (vocabulary_size : nat) : Prop :=
  (1 <= top_k c <= Z.of_nat vocabulary_size)%Z /\
  0 < temperature c /\
  (0 <= max_length c)%Z.

(** Outcomes and results that agree up to the ghost counter. *)
Definition outcome_agree {RT : Runtime} (o1 o2 : Outcome) : Prop :=
  match o1, o2 with
  | Next ids1 w1, Next ids2 w2 => ids1 = ids2 /\ same_process w1 w2
  | Break h1 ids1 w1, Break h2 ids2 w2 =>
      h1 = h2 /\ ids1 = ids2 /\ same_process w1 w2
  | Throw e1, Throw e2 => e1 = e2
  | _, _ => False
  end.

Definition loop_agree {RT : Runtime}
    (r1 r2 : Res (Exit * list nat * Process)) : Prop :=
  match r1, r2 with
  | Ok (h1, ids1, w1), Ok (h2, ids2, w2) =>
      h1 = h2 /\ ids1 = ids2 /\ same_process w1 w2
  | Raise e1, Raise e2 => e1 = e2
  | OutOfFuel, OutOfFuel => True
  | _, _ => False
  end.

(** Two calls of [generate] that end the same way: the same text and the
    same [Config] and generator afterwards, or the same exception. *)
Definition generate_agree {RT : Runtime}
    (r1 r2 : Res (string * Process)) : Prop :=
  match r1, r2 with
  | Ok (text1, w1), Ok (text2, w2) => text1 = text2 /\ same_process w1 w2
  | Raise e1, Raise e2 => e1 = e2
  | _, _ => False
  end.

(** The process state an outcome of the loop body carries, if any. *)
Definition outcome_process {RT : Runtime} (o : Outcome) : option Process :=
  match o with
  | Next _ w | Break _ _ w => Some w
  | Throw _ => None
  end.

(** The generator after one variate was taken from it. *)
Definition advance {RT : Runtime} (g : Rng) : Rng := snd (uniform g).

(** The number of draws a call makes: one per token it returns, and one
    more when the last draw was the end token. *)
Definition draws {RT : Runtime} (g : Generated) : nat :=
  match how_left g with
  | EosBreak => S (length (generated_ids g))
  | BudgetBreak | ConditionFalse => length (generated_ids g)
  end.

(** The number of times a call runs the scoring model: once per token it
    returns, and once more for the step that breaks out of the loop. *)
Definition steps {RT : Runtime} (g : Generated) : nat :=
  match how_left g with
  | ConditionFalse => length (generated_ids g)
  | BudgetBreak | EosBreak => S (length (generated_ids g))
  end.

(** A token that is one of the [k] best of a score tensor: it is a position
    of the tensor, and it belongs to [k] positions among which every
    position with a strictly higher score is found. *)
Definition among_best (logits : list R) (k : Z) (token : nat) : Prop :=
  (token < length logits)%nat /\
  exists indices,
    length indices = Z.to_nat k /\
    In token indices /\
    forall j, (j < length logits)%nat ->
              nth token logits 0 < nth j logits 0 -> In j indices.

(** The draws of one run of the loop body and the token it appends. *)
Definition body_draws_post {RT : Runtime} (input_ids : list nat) (w : Process) (o : Outcome)
  : Prop :=
  match o with
  | Next input_ids' w' =>
      generator w' = advance (generator w) /\
      exists token,
        input_ids' = input_ids ++ [token] /\
        among_best (model input_ids) (top_k (config w)) token
  | Break EosBreak _ w' => generator w' = advance (generator w)
  | Break _ _ w' => generator w' = generator w
  | Throw _ => True
  end.

(** ** Building the training set ([src/model.py])

    The two functions [prepare_dataset] maps over the lines of a text file,
    and the part of its pipeline that uses them.  [tf.strings.split] and the
    [StringLookup] layer are taken as given. *)

Module Training.

Definition SEQ_LENGTH : nat := 20.

(** The rows of [tf.reshape(t, [rows, cols])] for a one-dimensional [t], in
    row-major order. *)
Fixpoint rows_of {A : Type} (rows cols : nat) (t : list A) : list (list A) :=
  match rows with
  | O => []
  | S rows' => firstn cols t :: rows_of rows' cols (skipn cols t)
  end.

(** [tf.reshape(t, [rows, cols])]; tf raises [InvalidArgumentError] when
    the tensor does not have [rows * cols] entries: [None]. *)
Definition reshape {A : Type} (t : list A) (rows cols : nat)
  : option (list (list A)) :=
  if Nat.eqb (rows * cols) (length t) then Some (rows_of rows cols t)
  else None.

(** Running a function that may fail over a dataset ([ds.map(f)]): the
    first failure ends the run. *)
Fixpoint map_dataset {A B : Type} (f : A -> option B) (ds : list A)
  : option (list B) :=
  match ds with
  | [] => Some []
  | a :: ds' =>
      match f a with
      | None => None
      | Some b =>
          match map_dataset f ds' with
          | None => None
          | Some bs => Some (b :: bs)
          end
      end
  end.

Section Dataset.

(** [tf.strings.split(line, sep=" ")] *)
Variable strings_split : string -> list string.
(** the [StringLookup] layer applied to one token *)
Variable word_mapping : string -> nat.

(** Lines 93-103: the windows of [SEQ_LENGTH] tokens of one line. *)
Definition examples_from_line (line : string) : option (list (list string)) :=
  let tokens := strings_split line in
  let num_tokens := length tokens in
  (* drop remainder *)
  let num_tokens := (num_tokens - num_tokens mod SEQ_LENGTH)%nat in
  let num_examples := (num_tokens / SEQ_LENGTH)%nat in
  let tokens := firstn num_tokens tokens in
  (* split into examples *)
  reshape tokens num_examples SEQ_LENGTH.

(** The windows of a line read off its tokens directly: the first
    [length tokens / SEQ_LENGTH] rows of [SEQ_LENGTH] tokens each. *)
Definition windows (line : string) : list (list string) :=
  let tokens := strings_split line in
  rows_of (length tokens / SEQ_LENGTH) SEQ_LENGTH tokens.

(** Lines 106-111: [x[:-1]] and the looked-up [x[1:]]. *)
Definition add_targets (x : list string) : list string * list nat :=
  let inputs := removelast x in
  let targets := tl x in
  let targets := map word_mapping targets in
  (inputs, targets).

(** Lines 117-119 of [prepare_dataset], on the lines of the file in the
    order the dataset yields them:
    [ds.map(examples_from_line).unbatch().map(add_targets)]. *)
Definition examples_with_targets (lines : list string)
  : option (list (list string * list nat)) :=
  match map_dataset examples_from_line lines with
  | None => None
  | Some examples => Some (map add_targets (concat examples))
  end.

End Dataset.

End Training.

(** ** Suggesting the next word ([src/prediction.py])

    Scores are real numbers as before; the one value outside the reals that
    the program creates itself, the minus infinity left where the mask is
    subtracted, is modelled explicitly. *)

Module Prediction.

(** A score after the mask was subtracted. *)
Inductive masked : Type :=
| Finite (x : R)
| NegInf.

(** [tf.one_hot(index, depth, on_value=np.inf)]: [true] stands for the
    entry [inf], [false] for the entry 0. *)
Definition one_hot (index depth : nat) : list bool :=
  map (Nat.eqb index) (seq 0 depth).

(** [row - mask]: a score minus 0 is the score, a score minus [inf] is
    minus infinity. *)
Definition subtract (row : list R) (mask : list bool) : list masked :=
  map (fun entry : R * bool =>
         if snd entry then NegInf else Finite (fst entry))
      (combine row mask).

Definition exp_masked (x : masked) : R :=
  match x with
  | Finite r => exp r
  | NegInf => 0
  end.

Definition is_finite (x : masked) : bool :=
  match x with
  | Finite _ => true
  | NegInf => false
  end.

(** [tf.nn.softmax] along one row.  A row that is not empty and holds minus
    infinity only comes out as NaN: [None]. *)
Definition softmax_masked (row : list masked) : option (list R) :=
  match row with
  | [] => Some []
  | _ :: _ =>
      if existsb is_finite row
      then Some (map (fun x => exp_masked x
                               / Torch.sum (map exp_masked row)) row)
      else None
  end.

(** [tf.math.top_k(t, k)] has the contract of [torch.topk] as modelled
    above: the [k] largest entries in descending order with their
    positions, the lower position first among equal entries (as tf
    documents it), an error when [k] is negative or exceeds the size. *)
Definition top_k (t : list R) (k : Z) : option (list R * list nat) :=
  Torch.topk t k.

Section Suggest.

(** the trained model: one row of scores per token of the sentence *)
Variable model : list string -> list (list R).
(** [tf.strings.split(sentence, sep=" ")] *)
Variable strings_split : string -> list string.
(** [word_mapping.get_vocabulary()], with ["[UNK]"] at position 0 *)
Variable vocabulary : list string.

Definition tokens_from_sentence (sentence : string) : list string :=
  strings_split sentence.

(** Lines 26-42.  The mask has the width of the rows ([vocab_size] is the
    last dimension of the score tensor) and is subtracted from every row. *)
Definition get_prediction_probs (x : list string) : list (option (list R)) :=
  let probs := model x in
  map (fun row =>
         let vocab_size := length row in
         let unk_mask := one_hot 0 vocab_size in
         softmax_masked (subtract row unk_mask))
      probs.

(** The [StringLookup] layer with [invert=True]: the word at a position of
    the vocabulary. *)
Definition reverse_word_mapping (index : nat) : string :=
  nth index vocabulary "[UNK]"%string.

(** Lines 60-63 for one sentence: the positions [tf.math.top_k] selects in
    the last row of probabilities.  [None] when tf raises (no row, [k] out
    of range) or the row is NaN. *)
Definition suggested_indices (k : Z) (sentence : string) : option (list nat) :=
  let tokens := tokens_from_sentence sentence in
  let probs := get_prediction_probs tokens in
  match rev probs with
  | [] => None
  | None :: _ => None
  | Some last_row :: _ =>
      match top_k last_row k with
      | None => None
      | Some (_, indices) => Some indices
      end
  end.

(** Lines 64-66: the line printed for the sentence. *)
Definition suggest (k : Z) (sentence : string) : option string :=
  match suggested_indices k sentence with
  | None => None
  | Some indices =>
      Some (String.concat " " (map reverse_word_mapping indices))
  end.

End Suggest.

End Prediction.

(** ** Text as Python has it

    A [str] is a sequence of Unicode code points. *)

Module Python.

Definition str : Type := list N.

Definition space : N := 32.
Definition newline : N := 10.

(** [sep.join(parts)] *)
Fixpoint join (sep : str) (parts : list str) : str :=
  match parts with
  | [] => []
  | part :: rest =>
      match rest with
      | [] => part
      | _ :: _ => part ++ sep ++ join sep rest
      end
  end.

(** [s.split(sep)] for a separator of one character: every separator ends
    a piece, empty pieces are kept.  [piece] holds the characters of the
    piece being read, the last one first. *)
Fixpoint split_from (sep : N) (piece : str) (s : str) : list str :=
  match s with
  | [] => [rev piece]
  | c :: s' =>
      if N.eqb c sep then rev piece :: split_from sep [] s'
      else split_from sep (c :: piece) s'
  end.

Definition split (s : str) (sep : N) : list str := split_from sep [] s.

End Python.

(** ** Extracting text from a CSV file ([utils/csv-extract.py]) *)

Module CsvExtract.
Import Python.

Section Tokenize.

(** The class [\w] of the [re] module on [str] patterns. *)
Variable is_word : N -> bool.

(** [re.findall(r"\w+", line)]: the maximal runs of word characters, from
    left to right.  [run] holds the characters of the run being read, the
    last one first. *)
Fixpoint findall_words (run : str) (line : str) : list str :=
  match line with
  | [] =>
      match run with
      | [] => []
      | _ :: _ => [rev run]
      end
  | c :: line' =>
      if is_word c then findall_words (c :: run) line'
      else
        match run with
        | [] => findall_words [] line'
        | _ :: _ => rev run :: findall_words [] line'
        end
  end.

(** Lines 8-13. *)
Definition tokenize (line : str) : list str := findall_words [] line.

(** Lines 30-31: what [main] writes for one entry of the text column. *)
Definition written_line (line : str) : str :=
  let tokens := tokenize line in
  join [space] tokens ++ [newline].

(** Lines 28-31: the content of [output.txt] for the entries of the text
    column. *)
Definition output (entries : list str) : str :=
  concat (map written_line entries).

(** The tokens of an entry with the newline of its line attached to the
    last of them; an entry without tokens leaves the newline alone. *)
Definition attach_newline (tokens : list str) : list str :=
  match tokens with
  | [] => [[newline]]
  | _ :: _ => removelast tokens ++ [last tokens [] ++ [newline]]
  end.

(** A token as [tokenize] returns them: at least one character, word
    characters only. *)
Definition word (token : str) : Prop :=
  token <> [] /\ forallb is_word token = true.

End Tokenize.

End CsvExtract.

(** ** The vocabulary of a text file ([get_vocabulary] in [src/model.py])

    The files the function touches are threaded through the call.  A file
    holds text (decoded, with its line ends already translated to the
    newline character) or a pickled list of words. *)

Module Vocabulary.
Import Python.

(** [a == b] on two [str]. *)
Fixpoint str_eqb (a b : str) : bool :=
  match a, b with
  | [], [] => true
  | x :: a', y :: b' => N.eqb x y && str_eqb a' b'
  | _, _ => false
  end.

(** Iterating over an open text file: the lines in order, each with the
    newline that ends it; the last line may lack one.  [piece] holds the
    characters of the line being read, the last one first. *)
Fixpoint lines_from (piece : str) (content : str) : list str :=
  match content with
  | [] =>
      match piece with
      | [] => []
      | _ :: _ => [rev piece]
      end
  | c :: content' =>
      if N.eqb c newline then rev (c :: piece) :: lines_from [] content'
      else lines_from (c :: piece) content'
  end.

Definition readlines (content : str) : list str := lines_from [] content.

(** A [collections.Counter]: the words counted so far with their counts, in
    the order in which they were first counted. *)
Definition Counter : Type := list (str * nat).

(** [counter[word] += 1] *)
Fixpoint count_one (word : str) (counter : Counter) : Counter :=
  match counter with
  | [] => [(word, 1%nat)]
  | (w, n) :: rest =>
      if str_eqb w word then (w, S n) :: rest
      else (w, n) :: count_one word rest
  end.

(** [counter.update(words)] *)
Definition update (counter : Counter) (words : list str) : Counter :=
  fold_left (fun c word => count_one word c) words counter.

(** One insertion step of a stable sort by descending count. *)
Fixpoint insert_by_count (x : str * nat) (l : Counter) : Counter :=
  match l with
  | [] => [x]
  | y :: l' =>
      if (snd x <? snd y)%nat then y :: insert_by_count x l'
      else x :: y :: l'
  end.

(** [counter.most_common(n)]: the [n] words with the highest counts, the
    highest first; words with equal counts stay in the order in which they
    were first counted. *)
Definition most_common (n : nat) (counter : Counter) : Counter :=
  firstn n (fold_right insert_by_count [] counter).

Inductive File : Type :=
| Text (content : str)
| Pickle (words : list str).

Definition Files : Type := string -> option File.

Definition write (fs : Files) (path : string) (file : File) : Files :=
  fun p => if String.eqb p path then Some file else fs p.

Inductive io_error : Type :=
| FileNotFoundError   (* [open] on a path that holds no file *)
| UnpicklingError     (* [pickle.load] on a file that is no pickle *)
| UnicodeDecodeError. (* reading a pickle as text *)

Inductive Outcome : Type :=
| Returned (vocab : list str) (fs : Files)
| Raised (e : io_error).

Definition CACHE_FILE : string := "vocab.pickle".
Definition VOCAB_SIZE : nat := Z.to_nat 10000.

(** A counter sorted by descending count, as [most_common] sorts it. *)
Definition ranked (counter : Counter) : Counter :=
  fold_right insert_by_count [] counter.

(** The words counted for the lines of a file, line after line. *)
Definition count_lines (lines : list str) : Counter :=
  fold_left (fun counter line => update counter (split line space)) lines [].

(** Lines 55-81. *)
Definition get_vocabulary (filename : string) (fs : Files) : Outcome :=
  match fs CACHE_FILE with
  | Some (Pickle vocab) =>
      (* use cached data *)
      Returned vocab fs
  | Some (Text _) => Raised UnpicklingError
  | None =>
      match fs filename with
      | None => Raised FileNotFoundError
      | Some (Pickle _) => Raised UnicodeDecodeError
      | Some (Text content) =>
          (* count frequency of each word in file *)
          let counter := count_lines (readlines content) in
          let vocab := most_common VOCAB_SIZE counter in
          let vocab := map fst vocab in
          (* cache *)
          Returned vocab (write fs CACHE_FILE (Pickle vocab))
      end
  end.

(** All pieces of all lines of a text, in order: what the counter is fed. *)
Definition pieces (content : str) : list str :=
  flat_map (fun line => split line space) (readlines content).

Definition str_eq_dec : forall a b : str, {a = b} + {a <> b} :=
  list_eq_dec N.eq_dec.

(** How often a word is among the pieces of a text. *)
Definition occurrences (content : str) (word : str) : nat :=
  count_occ str_eq_dec (pieces content) word.

(** The count a counter holds for a word, 0 when it holds none. *)
Definition tally (counter : Counter) (word : str) : nat :=
  match find (fun entry => str_eqb (fst entry) word) counter with
  | Some entry => snd entry
  | None => O
  end.

(** What a counter that started empty holds after [words] were counted. *)
Definition counted (c : Counter) (words : list str) : Prop :=
  NoDup (map fst c) /\
  Forall (fun entry => (1 <= snd entry)%nat) c /\
  (forall w, tally c w = count_occ str_eq_dec words w) /\
  (forall w, In w (map fst c) <-> In w words).

End Vocabulary.

(** ** A small runtime for worked examples

    A scoring model that gives every one of four tokens the score 0, a
    generator that reads its variates from a tape, and a tokenizer that maps
    a character to its code. *)

Module Example.

Definition tape_uniform (tape : list R) : R * list R :=
  match tape with
  | [] => (0, [])
  | u :: rest => (u, rest)
  end.

Definition flat_model (_ : list nat) : list R := [0; 0; 0; 0].

Definition chars (s : string) : list nat :=
  map Ascii.nat_of_ascii (list_ascii_of_string s).

Definition text (ids : list nat) : string :=
  string_of_list_ascii (map Ascii.ascii_of_nat ids).

Definition flat : Runtime :=
  {| Rng := list R;
     uniform := tape_uniform;
     model := flat_model;
     encode := chars;
     decode := text;
     eos_token_id := 3%nat |}.

(** A process whose tape holds zeros only. *)
Definition start (max_length top_k : Z) (temperature confidence : R)
  : @Process flat :=
  @mkProcess flat (mkConfig max_length top_k temperature confidence)
    [0; 0; 0; 0; 0; 0] O.

(** The same process after seven earlier runs of the model. *)
Definition later (max_length top_k : Z) (temperature confidence : R)
  : @Process flat :=
  @mkProcess flat (mkConfig max_length top_k temperature confidence)
    [0; 0; 0; 0; 0; 0] 7.

(** The probabilities of every step of the example runtime with [top_k] 4. *)
Definition quarters : list R := [/ 4; / 4; / 4; / 4].

End Example.

(** ** Small inputs for the other programs *)

Module Samples.

(** The ASCII letters, digits and the underscore. *)
Definition ascii_word (c : N) : bool :=
  ((48 <=? c) && (c <=? 57) || (65 <=? c) && (c <=? 90)
   || (97 <=? c) && (c <=? 122) || (c =? 95))%N.

(** The entries "hi!" and "a b". *)
Definition entries : list Python.str :=
  [[104; 105; 33]; [97; 32; 98]]%N.

(** A directory that holds one text file, with the lines "a b" and "a". *)
Definition files : Vocabulary.Files :=
  fun path =>
    if String.eqb path "train.txt"
    then Some (Vocabulary.Text [97; 32; 98; 10; 97; 10]%N)
    else None.

(** A model over a vocabulary of three words that scores them all 0. *)
Definition three_scores (_ : list string) : list (list R) := [[0; 0; 0]].

(** A splitter that takes the sentence for one token. *)
Definition whole (sentence : string) : list string := [sentence].

End Samples.

(** ** Facts about the torch operations *)

Module TorchFacts.
Import Torch.

Lemma sum_nonneg (t : list R) :
  Forall (fun x => 0 <= x) t -> 0 <= sum t.
Proof.
  induction 1 as [|x t Hx _ IH]; simpl; lra.
Qed.

Lemma sum_firstn_le (n : nat) (t : list R) :
  Forall (fun x => 0 <= x) t -> sum (firstn n t) <= sum t.
Proof.
  intros Ht. revert n.
  induction Ht as [|x t Hx Ht IH]; intros [|n]; simpl; try lra.
  - pose proof (sum_nonneg t Ht). lra.
  - specialize (IH n). lra.
Qed.

Lemma Forall_firstn_keep {A} (P : A -> Prop) (n : nat) (t : list A) :
  Forall P t -> Forall P (firstn n t).
Proof.
  intros Ht. revert n.
  induction Ht as [|x t Hx Ht IH]; intros [|n]; simpl; constructor; auto.
Qed.

Lemma firstn_short {A} (n : nat) (t : list A) :
  (length t <= n)%nat -> firstn n t = t.
Proof. apply firstn_all2. Qed.

Lemma insert_desc_length x l :
  length (insert_desc x l) = S (length l).
Proof.
  induction l as [|y l IH]; simpl; [reflexivity|].
  destruct (Rlt_dec (fst x) (fst y)); simpl; congruence.
Qed.

Lemma sort_desc_length l : length (sort_desc l) = length l.
Proof.
  induction l as [|x l IH]; simpl; [reflexivity|].
  rewrite insert_desc_length. congruence.
Qed.

Lemma enumerate_length t : length (enumerate t) = length t.
Proof.
  unfold enumerate. rewrite length_combine, length_seq. apply Nat.min_id.
Qed.

Lemma insert_desc_sorted x l :
  descending (map fst l) -> descending (map fst (insert_desc x l)).
Proof.
  unfold descending.
  induction l as [|y l IH]; simpl; intros Hs.
  - repeat constructor.
  - destruct (Rlt_dec (fst x) (fst y)) as [Hlt|Hge]; simpl.
    + inversion Hs as [|? ? Hs' Hhd]; subst.
      constructor; [auto|].
      destruct l as [|z l]; simpl in *.
      * constructor. lra.
      * destruct (Rlt_dec (fst x) (fst z)); simpl; constructor.
        -- inversion Hhd; subst. assumption.
        -- lra.
    + constructor; [assumption|]. constructor. lra.
Qed.

Lemma sort_desc_sorted l : descending (map fst (sort_desc l)).
Proof.
  induction l as [|x l IH]; simpl.
  - constructor.
  - apply insert_desc_sorted, IH.
Qed.

Lemma descending_firstn n t : descending t -> descending (firstn n t).
Proof.
  unfold descending. revert t.
  induction n as [|n IH]; intros [|x t] Hs; simpl; try constructor.
  - apply IH. inversion Hs; assumption.
  - inversion Hs as [|? ? _ Hhd]; subst.
    destruct n, t; simpl; constructor.
    inversion Hhd; assumption.
Qed.

Lemma descending_map (f : R -> R) t :
  (forall a b, b <= a -> f b <= f a) ->
  descending t -> descending (map f t).
Proof.
  unfold descending. intros Hf.
  induction 1 as [|x t Hs IH Hhd]; simpl; constructor; auto.
  destruct Hhd; simpl; constructor; auto.
Qed.

(** A tensor that is already in descending order is left alone by the
    sort. *)
Lemma insert_desc_sorted_id x l :
  HdRel (fun a b => b <= a) (fst x) (map fst l) -> insert_desc x l = x :: l.
Proof.
  destruct l as [|y l]; simpl; intros Hhd; [reflexivity|].
  inversion Hhd; subst.
  destruct (Rlt_dec (fst x) (fst y)); [lra | reflexivity].
Qed.

Lemma sort_desc_sorted_id l :
  descending (map fst l) -> sort_desc l = l.
Proof.
  unfold descending.
  induction l as [|x l IH]; simpl; intros Hs; [reflexivity|].
  inversion Hs; subst. rewrite IH by assumption.
  apply insert_desc_sorted_id. assumption.
Qed.

Lemma map_fst_combine {A B} (l : list A) (l' : list B) :
  length l = length l' -> map fst (combine l l') = l.
Proof.
  revert l'. induction l as [|a l IH]; intros [|b l'] H; simpl in *;
    try discriminate; [reflexivity|].
  f_equal. apply IH. congruence.
Qed.

Lemma enumerate_values t : map fst (enumerate t) = t.
Proof.
  unfold enumerate. apply map_fst_combine. now rewrite length_seq.
Qed.

Lemma topk_inv t k values indices :
  topk t k = Some (values, indices) ->
  (0 <= k <= Z.of_nat (length t))%Z /\
  values = firstn (Z.to_nat k) (map fst (sort_desc (enumerate t))) /\
  length values = Z.to_nat k /\ length indices = Z.to_nat k.
Proof.
  unfold topk.
  destruct (Z.ltb_spec k 0); simpl; [discriminate|].
  destruct (Z.ltb_spec (Z.of_nat (length t)) k); simpl; [discriminate|].
  intros [= <- <-].
  rewrite !length_map, length_firstn, sort_desc_length, enumerate_length.
  rewrite <- firstn_map. repeat split; lia.
Qed.

Lemma topk_descending t k values indices :
  topk t k = Some (values, indices) -> descending values.
Proof.
  intros H. apply topk_inv in H as (_ & -> & _).
  apply descending_firstn, sort_desc_sorted.
Qed.

Lemma exp_sum_pos (t : list R) : t <> [] -> 0 < sum (map exp t).
Proof.
  destruct t as [|x t]; [congruence|intros _]. simpl.
  assert (0 <= sum (map exp t)).
  { apply sum_nonneg. apply Forall_map, Forall_forall.
    intros y _. left. apply exp_pos. }
  pose proof (exp_pos x). lra.
Qed.

Lemma softmax_length t : length (softmax t) = length t.
Proof. unfold softmax. apply length_map. Qed.

Lemma softmax_pos t : Forall (fun p => 0 < p) (softmax t).
Proof.
  destruct t as [|x t]; [constructor|].
  unfold softmax. apply Forall_map, Forall_forall. intros y _.
  apply Rdiv_lt_0_compat; [apply exp_pos|].
  apply exp_sum_pos. discriminate.
Qed.

Lemma sum_map_div (c : R) (t : list R) :
  sum (map (fun x => x / c) t) = sum t / c.
Proof.
  induction t as [|x t IH]; simpl; [lra|]. rewrite IH. lra.
Qed.

Lemma softmax_sum t : t <> [] -> sum (softmax t) = 1.
Proof.
  intros Ht. pose proof (exp_sum_pos t Ht) as Hpos.
  unfold softmax.
  rewrite <- (map_map exp (fun e => e / sum (map exp t))).
  rewrite sum_map_div. field. lra.
Qed.

Lemma softmax_descending t : descending t -> descending (softmax t).
Proof.
  intros Hs. destruct t as [|x t]; [constructor|].
  assert (Hpos : 0 < sum (map exp (x :: t))) by (apply exp_sum_pos; discriminate).
  unfold softmax. apply descending_map; [|assumption].
  intros a b Hab.
  apply Rmult_le_compat_r; [left; now apply Rinv_0_lt_compat|].
  destruct Hab as [Hlt | ->]; [left; now apply exp_increasing | right; reflexivity].
Qed.

Lemma scaled_inv values temperature scores :
  scaled values temperature = Some scores ->
  scores = map (fun v => v / temperature) values /\
  (values <> [] -> temperature <> 0).
Proof.
  unfold scaled. destruct values as [|v values].
  - intros [= <-]. split; [reflexivity | congruence].
  - destruct (Req_dec_T temperature 0); [discriminate|].
    intros [= <-]. split; [reflexivity | auto].
Qed.

Lemma scaled_descending values temperature scores :
  0 < temperature -> descending values ->
  scaled values temperature = Some scores -> descending scores.
Proof.
  intros Ht Hs H. apply scaled_inv in H as [-> _].
  apply descending_map; [|assumption].
  intros a b Hab. apply Rmult_le_compat_r; [|assumption].
  left. now apply Rinv_0_lt_compat.
Qed.

Lemma pick_lt u p : p <> [] -> (pick u p < length p)%nat.
Proof.
  revert u. induction p as [|x p IH]; intros u Hp; [congruence|].
  destruct p as [|y p]; [simpl; lia|].
  change (pick u (x :: y :: p))
    with (if Rlt_dec u x then O else S (pick (u - x) (y :: p))).
  destruct (Rlt_dec u x); [simpl; lia|].
  specialize (IH (u - x) ltac:(discriminate)). simpl in *. lia.
Qed.

End TorchFacts.

(** ** Facts about [confidence_loss] *)

Lemma confidence_loss_nonneg (p : list R) :
  Forall (fun x => 0 <= x) p -> Torch.sum p <= 1 -> 0 <= confidence_loss p.
Proof.
  intros Hp Hs. unfold confidence_loss.
  pose proof (TorchFacts.sum_firstn_le 3 p Hp) as Hle.
  assert (H0 : 0 <= Torch.sum (firstn 3 p)).
  { apply TorchFacts.sum_nonneg, TorchFacts.Forall_firstn_keep, Hp. }
  nra.
Qed.

Lemma confidence_loss_softmax_nonneg (scores : list R) :
  0 <= confidence_loss (Torch.softmax scores).
Proof.
  apply confidence_loss_nonneg.
  - eapply Forall_impl; [|apply TorchFacts.softmax_pos].
    simpl. intros; lra.
  - destruct scores as [|x t]; [simpl; lra|].
    rewrite TorchFacts.softmax_sum by discriminate. lra.
Qed.

(** ** Facts about the loop body and the loop *)

Section GenerationFacts.

Context {RT : Runtime}.

Lemma body_no_distribution input_ids w :
  distribution input_ids (config w) = None ->
  body input_ids w = Throw RuntimeError.
Proof.
  unfold distribution, body. simpl.
  destruct (Torch.topk _ _) as [[values indices]|]; [|reflexivity].
  destruct (Torch.scaled _ _); [discriminate | reflexivity].
Qed.

Lemma body_budget input_ids w probabilities indices :
  distribution input_ids (config w) = Some (probabilities, indices) ->
  confidence (config w) - confidence_loss probabilities < 0 ->
  body input_ids w =
    Break BudgetBreak input_ids
      (set_confidence (count_call w)
         (confidence (config w) - confidence_loss probabilities)).
Proof.
  unfold distribution, body. simpl.
  destruct (Torch.topk _ _) as [[values indices']|]; [|discriminate].
  destruct (Torch.scaled _ _); [|discriminate].
  intros [= <- <-] Hlt. simpl.
  destruct (Rlt_dec _ 0); [reflexivity | contradiction].
Qed.

Lemma body_draw input_ids w probabilities indices :
  distribution input_ids (config w) = Some (probabilities, indices) ->
  ~ confidence (config w) - confidence_loss probabilities < 0 ->
  body input_ids w =
    let w1 := set_confidence (count_call w)
                (confidence (config w) - confidence_loss probabilities) in
    match multinomial (generator w) probabilities with
    | None => Throw RuntimeError
    | Some (next_token_index, g') =>
        match nth_error indices next_token_index with
        | None => Throw IndexError
        | Some next_token =>
            if Nat.eqb next_token eos_token_id
            then Break EosBreak input_ids (set_generator w1 g')
            else Next (input_ids ++ [next_token]) (set_generator w1 g')
        end
    end.
Proof.
  unfold distribution, body. simpl.
  destruct (Torch.topk _ _) as [[values indices']|]; [|discriminate].
  destruct (Torch.scaled _ _); [|discriminate].
  intros [= <- <-] Hge. simpl.
  destruct (Rlt_dec _ 0); [contradiction | reflexivity].
Qed.

Lemma distribution_loss_nonneg input_ids c probabilities indices :
  distribution input_ids c = Some (probabilities, indices) ->
  0 <= confidence_loss probabilities.
Proof.
  unfold distribution.
  destruct (Torch.topk _ _) as [[values indices']|]; [|discriminate].
  destruct (Torch.scaled _ _); [|discriminate].
  intros [= <- <-]. apply confidence_loss_softmax_nonneg.
Qed.

Lemma body_inv input_ids w : body_post input_ids w (body input_ids w).
Proof.
  destruct (distribution input_ids (config w)) as [[probabilities indices]|] eqn:Hd.
  - pose proof (distribution_loss_nonneg _ _ _ _ Hd) as Hloss.
    destruct (Rlt_dec (confidence (config w) - confidence_loss probabilities) 0)
      as [Hlt|Hge].
    + rewrite (body_budget _ _ _ _ Hd Hlt). simpl.
      repeat split; auto; lra.
    + rewrite (body_draw _ _ _ _ Hd Hge). simpl.
      destruct (multinomial _ _) as [[next_token_index g']|]; [|simpl; discriminate].
      destruct (nth_error _ _) as [next_token|]; [|simpl; discriminate].
      destruct (Nat.eqb_spec next_token eos_token_id) as [Heq|Hne]; simpl.
      * repeat split; auto; lra.
      * repeat split; auto; try lra. exists next_token. auto.
  - rewrite (body_no_distribution _ _ Hd). simpl. discriminate.
Qed.

End GenerationFacts.

Section LoopFacts.

Context {RT : Runtime}.

Lemma same_settings_refl c : same_settings c c.
Proof. repeat split. Qed.

Lemma same_settings_trans c1 c2 c3 :
  same_settings c1 c2 -> same_settings c2 c3 -> same_settings c1 c3.
Proof. unfold same_settings. intuition congruence. Qed.

(** The loop never needs more rounds than there is room below
    [max_total_length]. *)
Lemma while_loop_fuel fuel max_total_length input_ids w :
  (Z.to_nat (max_total_length - Z.of_nat (length input_ids)) < fuel)%nat ->
  while_loop fuel max_total_length input_ids w <> OutOfFuel.
Proof.
  revert input_ids w.
  induction fuel as [|fuel IH]; intros input_ids w Hfuel; [lia|].
  simpl.
  destruct (Z.ltb_spec (Z.of_nat (length input_ids)) max_total_length) as [Hlt|Hge];
    [|discriminate].
  pose proof (body_inv input_ids w) as Hpost.
  destruct (body input_ids w) as [input_ids' w'| |]; try discriminate.
  destruct Hpost as ((next_token & -> & _) & _).
  apply IH. rewrite length_app. simpl. lia.
Qed.

(** What holds when the loop is left through one of its exits. *)
Lemma while_loop_inv fuel max_total_length input_ids w how input_ids' w' :
  while_loop fuel max_total_length input_ids w = Ok (how, input_ids', w') ->
  exists suffix,
    input_ids' = input_ids ++ suffix /\
    ~ In eos_token_id suffix /\
    same_settings (config w) (config w') /\
    confidence (config w') <= confidence (config w) /\
    match how with
    | ConditionFalse =>
        scorer_calls w' = (scorer_calls w + length suffix)%nat /\
        Z.of_nat (length input_ids') =
          Z.max max_total_length (Z.of_nat (length input_ids)) /\
        (suffix = [] -> w' = w) /\
        (suffix <> [] -> 0 <= confidence (config w'))
    | BudgetBreak =>
        scorer_calls w' = S (scorer_calls w + length suffix) /\
        (Z.of_nat (length input_ids') < max_total_length)%Z /\
        confidence (config w') < 0
    | EosBreak =>
        scorer_calls w' = S (scorer_calls w + length suffix) /\
        (Z.of_nat (length input_ids') < max_total_length)%Z /\
        0 <= confidence (config w')
    end.
Proof.
  revert input_ids w.
  induction fuel as [|fuel IH]; intros input_ids w; simpl; [discriminate|].
  destruct (Z.ltb_spec (Z.of_nat (length input_ids)) max_total_length) as [Hlt|Hge].
  - pose proof (body_inv input_ids w) as Hpost.
    destruct (body input_ids w) as [ids1 w1|how1 ids1 w1|e]; [| |discriminate].
    + destruct Hpost as ((next_token & -> & Hne) & Hset & Hcalls & Hc0 & Hc1).
      intros Hloop.
      apply IH in Hloop as (suffix & -> & Hnin & Hset' & Hconf & Hhow).
      exists (next_token :: suffix).
      rewrite <- app_assoc. simpl.
      split; [reflexivity|].
      split; [simpl; intros [Heq|Hin]; [congruence | contradiction]|].
      split; [eapply same_settings_trans; eassumption|].
      split; [lra|].
      assert (Hlen1 : length ((input_ids ++ [next_token]) ++ suffix)
                      = S (length input_ids + length suffix)).
      { rewrite !length_app. simpl. lia. }
      assert (Hlen2 : length (input_ids ++ next_token :: suffix)
                      = S (length input_ids + length suffix)).
      { rewrite length_app. simpl. lia. }
      assert (Hlen3 : length (input_ids ++ [next_token]) = S (length input_ids)).
      { rewrite length_app. simpl. lia. }
      rewrite Hlen1, ?Hlen3 in Hhow. rewrite Hlen2. simpl length.
      destruct how.
      * destruct Hhow as (Hq & Hlen & Hneg). repeat split; auto; lia.
      * destruct Hhow as (Hq & Hlen & Hpos). repeat split; auto; lia.
      * destruct Hhow as (Hq & Hlen & Hid & Hpos).
        split; [lia|]. split; [lia|]. split; [discriminate|].
        intros _. destruct suffix as [|t suffix].
        -- rewrite (Hid eq_refl). assumption.
        -- apply Hpos. discriminate.
    + destruct Hpost as (-> & Hset & Hcalls & Hconf & Hhow).
      intros [= -> -> ->].
      exists []. rewrite app_nil_r. simpl.
      split; [reflexivity|]. split; [tauto|]. split; [assumption|].
      split; [assumption|].
      destruct how; [| |contradiction].
      * destruct Hhow. repeat split; auto; lia.
      * repeat split; auto; lia.
  - intros [= <- <- <-].
    exists []. rewrite app_nil_r. simpl.
    split; [reflexivity|]. split; [tauto|].
    split; [apply same_settings_refl|]. split; [lra|].
    repeat split; try lia; congruence.
Qed.

Lemma while_loop_raise fuel max_total_length input_ids w e :
  while_loop fuel max_total_length input_ids w = Raise e ->
  e <> InvalidConfiguration.
Proof.
  revert input_ids w.
  induction fuel as [|fuel IH]; intros input_ids w; simpl; [discriminate|].
  destruct (_ <? _)%Z; [|discriminate].
  pose proof (body_inv input_ids w) as Hpost.
  destruct (body input_ids w) as [ids1 w1|how1 ids1 w1|e1].
  - apply IH.
  - discriminate.
  - intros [= <-]. exact Hpost.
Qed.

(** [generate] always comes to an end. *)
Lemma generate_ids_total input_ids w : generate_ids input_ids w <> OutOfFuel.
Proof.
  unfold generate_ids.
  pose proof (while_loop_fuel (S (Z.to_nat (max_length (config w))))
                (Z.of_nat (length input_ids) + max_length (config w))
                input_ids w) as Hfuel.
  destruct (while_loop _ _ _ _) as [[[how ids'] w']| |]; try discriminate.
  exfalso. apply Hfuel; [|reflexivity].
  replace (Z.of_nat (length input_ids) + max_length (config w)
           - Z.of_nat (length input_ids))%Z with (max_length (config w)) by lia.
  lia.
Qed.

Lemma generate_ids_inv input_ids w g :
  generate_ids input_ids w = Ok g ->
  exists input_ids',
    while_loop (S (Z.to_nat (max_length (config w))))
      (Z.of_nat (length input_ids) + max_length (config w)) input_ids w
      = Ok (how_left g, input_ids', after g) /\
    input_ids' = input_ids ++ generated_ids g.
Proof.
  unfold generate_ids.
  destruct (while_loop _ _ _ _) as [[[how ids'] w']| |] eqn:Hloop; try discriminate.
  intros [= <-]. simpl. exists ids'. split; [reflexivity|].
  apply while_loop_inv in Hloop as (suffix & -> & _).
  now rewrite skipn_app, skipn_all, Nat.sub_diag.
Qed.

(** One round of the loop, by what the body does. *)
Lemma while_loop_next fuel max_total_length input_ids w input_ids' w' :
  (Z.of_nat (length input_ids) < max_total_length)%Z ->
  body input_ids w = Next input_ids' w' ->
  while_loop (S fuel) max_total_length input_ids w
  = while_loop fuel max_total_length input_ids' w'.
Proof.
  intros Hlt Hb. simpl. rewrite Hb.
  destruct (Z.ltb_spec (Z.of_nat (length input_ids)) max_total_length);
    [reflexivity | lia].
Qed.

Lemma while_loop_break fuel max_total_length input_ids w how input_ids' w' :
  (Z.of_nat (length input_ids) < max_total_length)%Z ->
  body input_ids w = Break how input_ids' w' ->
  while_loop (S fuel) max_total_length input_ids w = Ok (how, input_ids', w').
Proof.
  intros Hlt Hb. simpl. rewrite Hb.
  destruct (Z.ltb_spec (Z.of_nat (length input_ids)) max_total_length);
    [reflexivity | lia].
Qed.

Lemma while_loop_throw fuel max_total_length input_ids w e :
  (Z.of_nat (length input_ids) < max_total_length)%Z ->
  body input_ids w = Throw e ->
  while_loop (S fuel) max_total_length input_ids w = Raise e.
Proof.
  intros Hlt Hb. simpl. rewrite Hb.
  destruct (Z.ltb_spec (Z.of_nat (length input_ids)) max_total_length);
    [reflexivity | lia].
Qed.

Lemma while_loop_stop fuel max_total_length input_ids w :
  (max_total_length <= Z.of_nat (length input_ids))%Z ->
  while_loop (S fuel) max_total_length input_ids w
  = Ok (ConditionFalse, input_ids, w).
Proof.
  intros Hge. simpl.
  destruct (Z.ltb_spec (Z.of_nat (length input_ids)) max_total_length);
    [lia | reflexivity].
Qed.

Lemma body_agree input_ids w1 w2 :
  same_process w1 w2 -> outcome_agree (body input_ids w1) (body input_ids w2).
Proof.
  destruct w1 as [c1 g1 n1], w2 as [c2 g2 n2].
  intros [Hc Hg]. simpl in Hc, Hg. subst c2 g2.
  unfold body. simpl.
  destruct (Torch.topk _ _) as [[values indices]|]; [|reflexivity].
  destruct (Torch.scaled _ _) as [scores|]; [|reflexivity].
  destruct (Rlt_dec _ 0); simpl.
  - repeat split.
  - destruct (multinomial _ _) as [[next_token_index g']|]; [|reflexivity].
    destruct (nth_error _ _) as [next_token|]; [|reflexivity].
    destruct (Nat.eqb _ _); simpl; repeat split.
Qed.

Lemma while_loop_agree fuel max_total_length input_ids w1 w2 :
  same_process w1 w2 ->
  loop_agree (while_loop fuel max_total_length input_ids w1)
             (while_loop fuel max_total_length input_ids w2).
Proof.
  revert input_ids w1 w2.
  induction fuel as [|fuel IH]; intros input_ids w1 w2 Hw; simpl; [exact I|].
  destruct (_ <? _)%Z; [|simpl; auto].
  pose proof (body_agree input_ids w1 w2 Hw) as Hb.
  destruct (body input_ids w1) as [ids1 v1|h1 ids1 v1|e1],
           (body input_ids w2) as [ids2 v2|h2 ids2 v2|e2];
    simpl in Hb; try contradiction.
  - destruct Hb as [-> Hv]. apply IH, Hv.
  - simpl. assumption.
  - simpl. assumption.
Qed.

End LoopFacts.

(** ** The example runtime, step by step *)

Module ExampleFacts.
Import Example.

Lemma flat_topk :
  Torch.topk [0; 0; 0; 0] 4 = Some ([0; 0; 0; 0], [0; 1; 2; 3]%nat).
Proof.
  unfold Torch.topk.
  change (Torch.enumerate [0; 0; 0; 0])
    with [(0, 0%nat); (0, 1%nat); (0, 2%nat); (0, 3%nat)].
  rewrite TorchFacts.sort_desc_sorted_id; [reflexivity|].
  simpl. repeat constructor; lra.
Qed.

Lemma flat_softmax :
  Torch.softmax (map (fun v => v / 1) [0; 0; 0; 0]) = [/4; /4; /4; /4].
Proof.
  unfold Torch.softmax. simpl.
  replace (0 / 1) with 0 by lra. rewrite exp_0.
  replace (1 / (1 + (1 + (1 + (1 + 0))))) with (/ 4) by lra.
  reflexivity.
Qed.

Lemma flat_loss : confidence_loss [/4; /4; /4; /4] = 7 / 16.
Proof. unfold confidence_loss. simpl. lra. Qed.

Lemma flat_distribution input_ids max_length confidence :
  @distribution flat input_ids (mkConfig max_length 4 1 confidence)
  = Some ([/4; /4; /4; /4], [0; 1; 2; 3]%nat).
Proof.
  unfold distribution.
  change (@model flat input_ids) with [0; 0; 0; 0].
  cbn [top_k temperature]. rewrite flat_topk.
  unfold Torch.scaled.
  destruct (Req_dec_T 1 0); [lra|].
  now rewrite flat_softmax.
Qed.

(** A step that finds the confidence used up. *)
Lemma flat_step_budget input_ids max_length confidence tape calls :
  confidence - 7 / 16 < 0 ->
  @body flat input_ids
    (@mkProcess flat (mkConfig max_length 4 1 confidence) tape calls)
  = Break BudgetBreak input_ids
      (@mkProcess flat (mkConfig max_length 4 1 (confidence - 7 / 16))
         tape (S calls)).
Proof.
  intros Hlt.
  erewrite body_budget by
    (first [apply flat_distribution | simpl; rewrite flat_loss; exact Hlt]).
  unfold set_confidence, count_call. simpl. now rewrite flat_loss.
Qed.

(** A step that draws with the variate 0, which selects token 0. *)
Lemma flat_step_draw input_ids max_length confidence tape calls :
  ~ confidence - 7 / 16 < 0 ->
  @body flat input_ids
    (@mkProcess flat (mkConfig max_length 4 1 confidence) (0 :: tape) calls)
  = Next (input_ids ++ [0%nat])
      (@mkProcess flat (mkConfig max_length 4 1 (confidence - 7 / 16))
         tape (S calls)).
Proof.
  intros Hge.
  erewrite body_draw by
    (first [apply flat_distribution | simpl; rewrite flat_loss; exact Hge]).
  unfold multinomial, set_confidence, set_generator, count_call. simpl.
  destruct (Rlt_dec 0 (/ 4)); [|lra].
  simpl. now rewrite flat_loss.
Qed.

(** A call with confidence 1/2: one token is drawn, the second charge
    stops the loop. *)
Lemma flat_first_call :
  @generate_ids flat [97; 98]%nat (start 5 4 1 (/ 2))
  = Ok {| how_left := BudgetBreak;
          generated_ids := [0%nat];
          after := @mkProcess flat (mkConfig 5 4 1 (/ 2 - 7 / 16 - 7 / 16))
                     [0; 0; 0; 0; 0] 2 |}.
Proof.
  unfold generate_ids, start.
  cbn [config max_length length].
  change (S (Z.to_nat 5)) with 6%nat.
  erewrite while_loop_next;
    [ | simpl; lia | apply flat_step_draw; lra ].
  erewrite while_loop_break;
    [ | simpl; lia | apply flat_step_budget; lra ].
  reflexivity.
Qed.

(** A call that starts with a confidence below 7/16 stops at its first
    charge. *)
Lemma flat_exhausted_call cap budget tape calls :
  (0 < cap)%Z ->
  budget - 7 / 16 < 0 ->
  @generate_ids flat [97; 98]%nat
    (@mkProcess flat (mkConfig cap 4 1 budget) tape calls)
  = Ok {| how_left := BudgetBreak;
          generated_ids := [];
          after := @mkProcess flat
                     (mkConfig cap 4 1 (budget - 7 / 16))
                     tape (S calls) |}.
Proof.
  intros Hmax Hlt. unfold generate_ids.
  cbn [config max_length length].
  erewrite while_loop_break;
    [ | cbn [length]; lia | apply flat_step_budget; exact Hlt ].
  reflexivity.
Qed.

End ExampleFacts.

(** ** Further facts used by the statements below *)

Section PipelineFacts.

Context {RT : Runtime}.

(** On a tensor that is already in descending order the three largest
    entries are the first three. *)
Lemma top3_descending (p : list R) :
  Torch.descending p -> Design.top3 p = firstn 3 p.
Proof.
  intros Hp. unfold Design.top3.
  rewrite TorchFacts.sort_desc_sorted_id.
  - now rewrite TorchFacts.enumerate_values.
  - now rewrite TorchFacts.enumerate_values.
Qed.

Lemma distribution_descending_pos input_ids c probabilities indices :
  0 < temperature c ->
  distribution input_ids c = Some (probabilities, indices) ->
  Torch.descending probabilities.
Proof.
  unfold distribution. intros Ht.
  destruct (Torch.topk _ _) as [[values indices']|] eqn:Htop; [|discriminate].
  destruct (Torch.scaled _ _) as [scores|] eqn:Hsc; [|discriminate].
  intros [= <- <-].
  apply TorchFacts.softmax_descending.
  eapply TorchFacts.scaled_descending; [exact Ht| |exact Hsc].
  eapply TorchFacts.topk_descending, Htop.
Qed.

(** The probabilities of a step are positive and, unless [top_k] is 0, sum
    to 1. *)
Lemma distribution_probabilities input_ids c probabilities indices :
  distribution input_ids c = Some (probabilities, indices) ->
  Forall (fun x => 0 < x) probabilities /\
  (probabilities <> [] -> Torch.sum probabilities = 1).
Proof.
  unfold distribution.
  destruct (Torch.topk _ _) as [[values indices']|]; [|discriminate].
  destruct (Torch.scaled _ _) as [scores|]; [|discriminate].
  intros [= <- <-]. split; [apply TorchFacts.softmax_pos|].
  intros Hne. apply TorchFacts.softmax_sum.
  intros ->. apply Hne. reflexivity.
Qed.

(** Whatever the body does after the charge, the confidence it leaves is
    the old one minus the loss of the step's probabilities. *)
Lemma body_confidence input_ids w probabilities indices w' :
  distribution input_ids (config w) = Some (probabilities, indices) ->
  outcome_process (body input_ids w) = Some w' ->
  confidence (config w')
  = confidence (config w) - confidence_loss probabilities.
Proof.
  intros Hd.
  destruct (Rlt_dec (confidence (config w) - confidence_loss probabilities) 0)
    as [Hlt|Hge].
  - rewrite (body_budget _ _ _ _ Hd Hlt). simpl. now intros [= <-].
  - rewrite (body_draw _ _ _ _ Hd Hge). simpl.
    destruct (multinomial _ _) as [[next_token_index g']|]; [|discriminate].
    destruct (nth_error _ _) as [next_token|]; [|discriminate].
    destruct (Nat.eqb _ _); simpl; now intros [= <-].
Qed.

(** With a configuration in range and a model that scores the whole
    vocabulary, every step has a distribution over [top_k] candidates. *)
Lemma distribution_valid vocabulary_size input_ids c :
  (forall ids, length (model ids) = vocabulary_size) ->
  valid_config c vocabulary_size ->
  exists probabilities indices,
    distribution input_ids c = Some (probabilities, indices) /\
    probabilities <> [] /\
    length indices = length probabilities.
Proof.
  intros Hvocab ((Hk1 & Hk2) & Ht & _).
  unfold distribution, Torch.topk. rewrite Hvocab.
  destruct (Z.ltb_spec (top_k c) 0); [lia|].
  destruct (Z.ltb_spec (Z.of_nat vocabulary_size) (top_k c)); [lia|].
  simpl.
  set (top := firstn _ _).
  assert (Hlen : length top = Z.to_nat (top_k c)).
  { unfold top. rewrite length_firstn, TorchFacts.sort_desc_length,
      TorchFacts.enumerate_length, Hvocab. lia. }
  destruct top as [|x top'] eqn:Htop; [simpl in Hlen; lia|].
  unfold Torch.scaled. simpl map at 1.
  destruct (Req_dec_T (temperature c) 0); [lra|].
  eexists _, _. split; [reflexivity|].
  split; [discriminate|].
  now rewrite TorchFacts.softmax_length, !length_map.
Qed.

Lemma multinomial_in_range g probabilities :
  probabilities <> [] ->
  exists next_token_index g',
    multinomial g probabilities = Some (next_token_index, g') /\
    (next_token_index < length probabilities)%nat.
Proof.
  intros Hp. unfold multinomial.
  destruct probabilities as [|x p]; [congruence|].
  destruct (uniform g) as [u g'].
  eexists _, _. split; [reflexivity|].
  apply TorchFacts.pick_lt. discriminate.
Qed.

Lemma body_valid vocabulary_size input_ids w :
  (forall ids, length (model ids) = vocabulary_size) ->
  valid_config (config w) vocabulary_size ->
  forall e, body input_ids w <> Throw e.
Proof.
  intros Hvocab Hvalid e.
  destruct (distribution_valid vocabulary_size input_ids (config w) Hvocab Hvalid)
    as (probabilities & indices & Hd & Hne & Hlen).
  destruct (Rlt_dec (confidence (config w) - confidence_loss probabilities) 0)
    as [Hlt|Hge].
  - rewrite (body_budget _ _ _ _ Hd Hlt). discriminate.
  - rewrite (body_draw _ _ _ _ Hd Hge). simpl.
    destruct (multinomial_in_range (generator w) probabilities Hne)
      as (next_token_index & g' & -> & Hrange).
    destruct (nth_error indices next_token_index) as [next_token|] eqn:Hnth.
    + destruct (Nat.eqb _ _); discriminate.
    + apply nth_error_None in Hnth. lia.
Qed.

Lemma valid_config_settings c c' vocabulary_size :
  same_settings c c' ->
  valid_config c vocabulary_size -> valid_config c' vocabulary_size.
Proof.
  unfold same_settings, valid_config. intros (-> & -> & ->). auto.
Qed.

Lemma while_loop_valid vocabulary_size fuel max_total_length input_ids w :
  (forall ids, length (model ids) = vocabulary_size) ->
  valid_config (config w) vocabulary_size ->
  forall e, while_loop fuel max_total_length input_ids w <> Raise e.
Proof.
  intros Hvocab. revert input_ids w.
  induction fuel as [|fuel IH]; intros input_ids w Hvalid e; simpl;
    [discriminate|].
  destruct (_ <? _)%Z; [|discriminate].
  pose proof (body_inv input_ids w) as Hpost.
  pose proof (body_valid vocabulary_size input_ids w Hvocab Hvalid) as Hthrow.
  destruct (body input_ids w) as [ids1 w1|how1 ids1 w1|e1].
  - destruct Hpost as (_ & Hset & _).
    apply IH. eapply valid_config_settings; eassumption.
  - discriminate.
  - exfalso. eapply Hthrow. reflexivity.
Qed.

(** A cap that leaves no room: the loop body is never entered. *)
Lemma generate_ids_no_room input_ids w :
  (max_length (config w) <= 0)%Z ->
  generate_ids input_ids w
  = Ok {| how_left := ConditionFalse; generated_ids := []; after := w |}.
Proof.
  intros Hmax. unfold generate_ids.
  rewrite while_loop_stop by lia.
  now rewrite skipn_all.
Qed.

Lemma generate_ids_agree input_ids w1 w2 :
  same_process w1 w2 ->
  match generate_ids input_ids w1, generate_ids input_ids w2 with
  | Ok g1, Ok g2 =>
      how_left g1 = how_left g2 /\ generated_ids g1 = generated_ids g2 /\
      same_process (after g1) (after g2)
  | Raise e1, Raise e2 => e1 = e2
  | _, _ => False
  end.
Proof.
  intros Hw.
  pose proof (generate_ids_total input_ids w1) as Htotal.
  revert Htotal. unfold generate_ids.
  destruct Hw as [Hc Hg]. rewrite <- Hc.
  pose proof (while_loop_agree (S (Z.to_nat (max_length (config w1))))
                (Z.of_nat (length input_ids) + max_length (config w1))
                input_ids w1 w2 (conj Hc Hg)) as Hloop.
  destruct (while_loop _ _ _ w1) as [[[h1 ids1] v1]| |],
           (while_loop _ _ _ w2) as [[[h2 ids2] v2]| |];
    simpl in Hloop; try contradiction; intros Htotal.
  - destruct Hloop as (-> & -> & Hv). simpl. auto.
  - assumption.
Qed.

(** Once the confidence held by [Config] is negative, no later call
    returns a token: the first charge cannot raise it and the loop is left
    at once. *)
Lemma generate_ids_exhausted input_ids w g :
  confidence (config w) < 0 ->
  generate_ids input_ids w = Ok g ->
  generated_ids g = [] /\ confidence (config (after g)) < 0.
Proof.
  intros Hneg Hgen.
  destruct (generate_ids_inv _ _ _ Hgen) as (input_ids' & Hloop & Hids).
  pose proof (while_loop_inv _ _ _ _ _ _ _ Hloop)
    as (suffix & _ & _ & _ & Hle & _).
  split; [|lra].
  revert Hloop. simpl.
  destruct (_ <? _)%Z.
  - pose proof (body_inv input_ids w) as Hpost.
    destruct (body input_ids w) as [ids1 w1|how1 ids1 w1|e];
      simpl in Hpost.
    + destruct Hpost as (_ & _ & _ & Hc0 & Hc1). lra.
    + destruct Hpost as (-> & _). intros [= _ Heq _].
      rewrite <- Heq in Hids.
      rewrite <- (app_nil_r input_ids) in Hids at 1.
      now apply app_inv_head in Hids.
    + discriminate.
  - intros [= _ Heq _]. rewrite <- Heq in Hids.
    rewrite <- (app_nil_r input_ids) in Hids at 1.
    now apply app_inv_head in Hids.
Qed.

End PipelineFacts.

(** ** A temperature that is not 0 *)

Section NonzeroTemperature.

Context {RT : Runtime}.

(** With [top_k] in range, a temperature other than 0 and a model that
    scores the whole vocabulary, every step has a distribution over [top_k]
    candidates, whatever the sign of the temperature. *)
Lemma distribution_nonzero vocabulary_size input_ids c :
  (forall ids, length (model ids) = vocabulary_size) ->
  (1 <= top_k c <= Z.of_nat vocabulary_size)%Z ->
  temperature c <> 0 ->
  exists probabilities indices,
    distribution input_ids c = Some (probabilities, indices) /\
    probabilities <> [] /\
    length indices = length probabilities.
Proof.
  intros Hvocab (Hk1 & Hk2) Ht.
  unfold distribution, Torch.topk. rewrite Hvocab.
  destruct (Z.ltb_spec (top_k c) 0); [lia|].
  destruct (Z.ltb_spec (Z.of_nat vocabulary_size) (top_k c)); [lia|].
  simpl.
  set (top := firstn _ _).
  assert (Hlen : length top = Z.to_nat (top_k c)).
  { unfold top. rewrite length_firstn, TorchFacts.sort_desc_length,
      TorchFacts.enumerate_length, Hvocab. lia. }
  destruct top as [|x top'] eqn:Htop; [simpl in Hlen; lia|].
  unfold Torch.scaled. simpl map at 1.
  destruct (Req_dec_T (temperature c) 0); [contradiction|].
  eexists _, _. split; [reflexivity|].
  split; [discriminate|].
  now rewrite TorchFacts.softmax_length, !length_map.
Qed.

Lemma body_nonzero vocabulary_size input_ids w :
  (forall ids, length (model ids) = vocabulary_size) ->
  (1 <= top_k (config w) <= Z.of_nat vocabulary_size)%Z ->
  temperature (config w) <> 0 ->
  forall e, body input_ids w <> Throw e.
Proof.
  intros Hvocab Hk Ht e.
  destruct (distribution_nonzero vocabulary_size input_ids (config w)
              Hvocab Hk Ht)
    as (probabilities & indices & Hd & Hne & Hlen).
  destruct (Rlt_dec (confidence (config w) - confidence_loss probabilities) 0)
    as [Hlt|Hge].
  - rewrite (body_budget _ _ _ _ Hd Hlt). discriminate.
  - rewrite (body_draw _ _ _ _ Hd Hge). simpl.
    destruct (multinomial_in_range (generator w) probabilities Hne)
      as (next_token_index & g' & -> & Hrange).
    destruct (nth_error indices next_token_index) as [next_token|] eqn:Hnth.
    + destruct (Nat.eqb _ _); discriminate.
    + apply nth_error_None in Hnth. lia.
Qed.

Lemma while_loop_nonzero vocabulary_size fuel max_total_length input_ids w :
  (forall ids, length (model ids) = vocabulary_size) ->
  (1 <= top_k (config w) <= Z.of_nat vocabulary_size)%Z ->
  temperature (config w) <> 0 ->
  forall e, while_loop fuel max_total_length input_ids w <> Raise e.
Proof.
  intros Hvocab. revert input_ids w.
  induction fuel as [|fuel IH]; intros input_ids w Hk Ht e; simpl;
    [discriminate|].
  destruct (_ <? _)%Z; [|discriminate].
  pose proof (body_inv input_ids w) as Hpost.
  pose proof (body_nonzero vocabulary_size input_ids w Hvocab Hk Ht) as Hthrow.
  destruct (body input_ids w) as [ids1 w1|how1 ids1 w1|e1].
  - destruct Hpost as (_ & (_ & Hk1 & Ht1) & _).
    apply IH; [now rewrite Hk1 | now rewrite Ht1].
  - discriminate.
  - exfalso. eapply Hthrow. reflexivity.
Qed.

End NonzeroTemperature.

(** ** The statements of the design document *)

(** C1 (the confidence is a fresh value in every call): not so in the
    program.  [generate] charges the class attribute [Config.confidence]
    itself, so what one call uses up is missing in the next.  With the
    example runtime and a configured confidence of 1/2, a first call on "ab"
    returns one token and leaves the confidence at -3/8; a second call with
    the same prompt and the same random tape starts from -3/8, stops at its
    first charge and returns nothing. *)
Theorem generate_confidence_carried_over :
  exists w1 w2,
    @generate Example.flat "ab" (Example.start 5 4 1 (/ 2))
      = Ok (Example.text [0%nat], w1) /\
    confidence (config w1) = - 3 / 8 /\
    @generate Example.flat "ab"
      (set_generator w1 (generator (Example.start 5 4 1 (/ 2))))
      = Ok (EmptyString, w2) /\
    confidence (config w2) = - 13 / 16.
Proof.
  eexists _, _. unfold generate.
  change (@encode Example.flat "ab") with [97; 98]%nat.
  rewrite ExampleFacts.flat_first_call. cbn [generated_ids after].
  split; [reflexivity|]. split; [simpl; lra|].
  unfold set_generator, Example.start. cbn [config generator scorer_calls].
  rewrite ExampleFacts.flat_exhausted_call by (first [lia | lra]).
  split; [reflexivity|]. simpl. lra.
Qed.

(** C2 (with a fixed random seed, two calls with the same prompt and the
    same configuration return the same output): not so in the program.  The
    first call leaves its charges in [Config.confidence], so a second call
    is not a repetition of the first even when the prompt is the same, the
    random generator is put back to the state it had, and [max_length],
    [top_k] and [temperature] are what they were.  With the example runtime
    and a configured confidence of 1/2, the first call on "ab" returns the
    text of one token, the second call returns the empty text. *)
Theorem generate_two_runs_differ :
  exists text1 w1 text2 w2,
    @generate Example.flat "ab" (Example.start 5 4 1 (/ 2)) = Ok (text1, w1) /\
    same_settings (config (Example.start 5 4 1 (/ 2))) (config w1) /\
    @generate Example.flat "ab"
      (set_generator w1 (generator (Example.start 5 4 1 (/ 2))))
      = Ok (text2, w2) /\
    text1 = Example.text [0%nat] /\
    text2 = EmptyString /\
    text1 <> text2.
Proof.
  eexists _, _, _, _. unfold generate.
  change (@encode Example.flat "ab") with [97; 98]%nat.
  rewrite ExampleFacts.flat_first_call. cbn [generated_ids after].
  split; [reflexivity|].
  split; [repeat split|].
  unfold set_generator, Example.start. cbn [config generator scorer_calls].
  rewrite ExampleFacts.flat_exhausted_call by (first [lia | lra]).
  cbn [generated_ids after].
  split; [reflexivity|]. split; [reflexivity|]. split; [reflexivity|].
  discriminate.
Qed.

Section Statements.

Context {RT : Runtime}.

(** What is left of reproducibility: two calls agree when, besides the
    generator, the confidence in [Config] is put back to its value before
    the first call.  They then return the same text and leave the same
    [Config] and generator behind, or raise the same exception. *)
Theorem generate_deterministic (input : string) (w1 w2 : Process) :
  config w1 = config w2 ->
  generator w1 = generator w2 ->
  generate_agree (generate input w1) (generate input w2).
Proof.
  intros Hc Hg.
  pose proof (generate_ids_agree (encode input) w1 w2 (conj Hc Hg)) as Hids.
  unfold generate, generate_agree.
  destruct (generate_ids (encode input) w1) as [g1|e1|],
           (generate_ids (encode input) w2) as [g2|e2|];
    try contradiction.
  - destruct Hids as (_ & -> & Hafter). auto.
  - assumption.
Qed.

(** C3 (the charge is 1 - (sum of the three largest probabilities)^2, over
    all candidates when there are fewer than three, and the new budget is
    the old one minus that penalty): for probabilities in descending order,
    as every step with a positive temperature produces them,
    [confidence_loss] is the penalty of the design document; with at most three entries the sum in it is the sum of
    all of them; and whenever such probabilities are the distribution of a
    step, the confidence the step leaves is the one it found minus exactly
    this penalty. *)
Theorem confidence_loss_top3 (probabilities : list R) :
  Torch.descending probabilities ->
  confidence_loss probabilities = Design.penalty probabilities /\
  ((length probabilities <= 3)%nat ->
   Design.penalty probabilities = 1 - Torch.sum probabilities ^ 2) /\
  (forall input_ids w indices w',
      distribution input_ids (config w) = Some (probabilities, indices) ->
      outcome_process (body input_ids w) = Some w' ->
      confidence (config w')
      = confidence (config w) - Design.penalty probabilities).
Proof.
  intros Hdesc. unfold Design.penalty.
  rewrite (top3_descending _ Hdesc).
  split; [reflexivity|]. split.
  - intros Hlen. now rewrite TorchFacts.firstn_short.
  - intros input_ids w indices w' Hd Hw'.
    apply (body_confidence _ _ _ _ _ Hd Hw').
Qed.

(** C4 (the budget is charged before sampling, and a budget below zero
    after the charge stops the loop before the draw, so that no token is
    appended on that step): when the confidence minus the loss of the
    step's probabilities is negative, the body breaks out of the loop with
    the token sequence and the random generator untouched and the charged
    confidence stored, and the loop ends there with the sequence it had. *)
Theorem budget_stop_precedes_draw
    (input_ids : list nat) (w : Process)
    (probabilities : list R) (indices : list nat) :
  distribution input_ids (config w) = Some (probabilities, indices) ->
  confidence (config w) - confidence_loss probabilities < 0 ->
  exists w',
    body input_ids w = Break BudgetBreak input_ids w' /\
    confidence (config w')
    = confidence (config w) - confidence_loss probabilities /\
    generator w' = generator w /\
    forall fuel max_total_length,
      (Z.of_nat (length input_ids) < max_total_length)%Z ->
      while_loop (S fuel) max_total_length input_ids w
      = Ok (BudgetBreak, input_ids, w').
Proof.
  intros Hd Hlt. eexists. split; [apply (body_budget _ _ _ _ Hd Hlt)|].
  split; [reflexivity|]. split; [reflexivity|].
  intros fuel max_total_length Hroom.
  apply while_loop_break; [exact Hroom|].
  apply (body_budget _ _ _ _ Hd Hlt).
Qed.

(** C5 (a drawn end token stops the loop without being appended, so the
    returned suffix never contains the end token): the tokens a call
    returns do not contain [eos_token_id]; and a step whose draw selects
    [eos_token_id] breaks out of the loop with the token sequence as it
    was. *)
Theorem generate_never_returns_eos
    (input_ids : list nat) (w : Process) (g : Generated) :
  generate_ids input_ids w = Ok g ->
  ~ In eos_token_id (generated_ids g) /\
  (forall ids v probabilities indices next_token_index g',
      distribution ids (config v) = Some (probabilities, indices) ->
      ~ confidence (config v) - confidence_loss probabilities < 0 ->
      multinomial (generator v) probabilities = Some (next_token_index, g') ->
      nth_error indices next_token_index = Some eos_token_id ->
      exists v', body ids v = Break EosBreak ids v').
Proof.
  intros Hgen. split.
  - apply generate_ids_inv in Hgen as (input_ids' & Hloop & Hids).
    apply while_loop_inv in Hloop as (suffix & Heq & Hnin & _).
    rewrite Hids in Heq. apply app_inv_head in Heq. now rewrite Heq.
  - intros ids v probabilities indices next_token_index g' Hd Hge Hdraw Hnth.
    rewrite (body_draw _ _ _ _ Hd Hge). simpl.
    rewrite Hdraw, Hnth, Nat.eqb_refl. eexists. reflexivity.
Qed.

(** C6 (at most [max_new_tokens] runs of the scoring model, zero or one
    token more per step, a suffix of at most [max_new_tokens] tokens, the
    prompt left in place): for a cap that is not negative, a call that
    returns has run the model at most [max_length] times and returns at most
    [max_length] tokens, never more tokens than model runs; the sequence the
    loop ends with is the prompt followed by the returned tokens; and one
    run of the loop body leaves the sequence as it was or appends one token
    to it. *)
Theorem generate_bounded
    (input_ids : list nat) (w : Process) (g : Generated) :
  (0 <= max_length (config w))%Z ->
  generate_ids input_ids w = Ok g ->
  (Z.of_nat (scorer_calls (after g) - scorer_calls w)
   <= max_length (config w))%Z /\
  (Z.of_nat (length (generated_ids g)) <= max_length (config w))%Z /\
  (length (generated_ids g) <= scorer_calls (after g) - scorer_calls w)%nat /\
  (exists input_ids',
      while_loop (S (Z.to_nat (max_length (config w))))
        (Z.of_nat (length input_ids) + max_length (config w)) input_ids w
      = Ok (how_left g, input_ids', after g) /\
      input_ids' = input_ids ++ generated_ids g) /\
  (forall ids v,
      match body ids v with
      | Next ids' _ => exists next_token, ids' = ids ++ [next_token]
      | Break _ ids' _ => ids' = ids
      | Throw _ => True
      end).
Proof.
  intros Hmax Hgen.
  destruct (generate_ids_inv _ _ _ Hgen) as (input_ids' & Hloop & Hids).
  pose proof (while_loop_inv _ _ _ _ _ _ _ Hloop)
    as (suffix & Heq & _ & _ & _ & Hhow).
  assert (Hsuffix : suffix = generated_ids g).
  { rewrite Hids in Heq. now apply app_inv_head in Heq. }
  subst suffix.
  assert (Hlen : length input_ids'
                 = (length input_ids + length (generated_ids g))%nat).
  { rewrite Hids. apply length_app. }
  rewrite Hlen in Hhow.
  assert (Hcount :
    (Z.of_nat (scorer_calls (after g) - scorer_calls w)
     <= max_length (config w))%Z /\
    (Z.of_nat (length (generated_ids g)) <= max_length (config w))%Z /\
    (length (generated_ids g) <= scorer_calls (after g) - scorer_calls w)%nat).
  { destruct (how_left g).
    - destruct Hhow as (Hq & Hroom & _). lia.
    - destruct Hhow as (Hq & Hroom & _). lia.
    - destruct Hhow as (Hq & Hroom & _). lia. }
  destruct Hcount as (H1 & H2 & H3).
  repeat split; auto.
  - exists input_ids'. auto.
  - intros ids v. pose proof (body_inv ids v) as Hpost.
    destruct (body ids v) as [ids' v'|how ids' v'|e]; simpl in Hpost.
    + destruct Hpost as ((next_token & -> & _) & _). eauto.
    + tauto.
    + exact I.
Qed.

(** C7 (the budget never grows: for probabilities that are not negative
    and sum to 1 the penalty is not negative): such probabilities have a
    loss of at least 0, so charging it never raises the confidence; the
    probabilities of every step are of this kind (or empty, with loss 1),
    every run of the loop body that does not raise leaves a confidence no
    larger than it found, and so does every call that returns. *)
Theorem charge_never_increases (probabilities : list R) (c : R) :
  Forall (fun x => 0 <= x) probabilities ->
  Torch.sum probabilities = 1 ->
  0 <= confidence_loss probabilities /\
  c - confidence_loss probabilities <= c /\
  (forall ids w p indices,
      distribution ids (config w) = Some (p, indices) ->
      Forall (fun x => 0 <= x) p /\ (p <> [] -> Torch.sum p = 1) /\
      0 <= confidence_loss p) /\
  (forall ids w w',
      outcome_process (body ids w) = Some w' ->
      confidence (config w') <= confidence (config w)) /\
  (forall ids w g,
      generate_ids ids w = Ok g ->
      confidence (config (after g)) <= confidence (config w)).
Proof.
  intros Hpos Hsum.
  assert (Hloss : 0 <= confidence_loss probabilities).
  { apply confidence_loss_nonneg; [assumption | lra]. }
  split; [exact Hloss|]. split; [lra|]. split; [|split].
  - intros ids w p indices Hd.
    destruct (distribution_probabilities _ _ _ _ Hd) as [Hp Hs].
    split; [|split; [exact Hs|]].
    + eapply Forall_impl; [|exact Hp]. simpl. intros; lra.
    + eapply distribution_loss_nonneg, Hd.
  - intros ids w w' Hw'. pose proof (body_inv ids w) as Hpost.
    destruct (body ids w) as [ids' v|how ids' v|e]; simpl in Hw', Hpost.
    + injection Hw' as <-. destruct Hpost as (_ & _ & _ & _ & Hle). exact Hle.
    + injection Hw' as <-. destruct Hpost as (_ & _ & _ & Hle & _). exact Hle.
    + discriminate.
  - intros ids w g Hgen.
    destruct (generate_ids_inv _ _ _ Hgen) as (input_ids' & Hloop & _).
    apply while_loop_inv in Hloop as (suffix & _ & _ & _ & Hle & _).
    exact Hle.
Qed.

(** C8, as the program has it (the design document adds a terminal reason
    to the result, which [generate] does not return): with [max_length] 0 a call
    does not run the model, leaves the loop through its length condition
    with nothing generated and the process state untouched, and returns the
    decoding of the empty token list. *)
Theorem generate_zero_cap (input : string) (w : Process) :
  max_length (config w) = 0%Z ->
  generate_ids (encode input) w
  = Ok {| how_left := ConditionFalse; generated_ids := []; after := w |} /\
  generate input w = Ok (decode [], w) /\
  (forall text w', generate input w = Ok (text, w') ->
                   scorer_calls w' = scorer_calls w).
Proof.
  intros Hmax.
  assert (Hids : generate_ids (encode input) w
                 = Ok {| how_left := ConditionFalse;
                         generated_ids := []; after := w |}).
  { apply generate_ids_no_room. lia. }
  split; [exact Hids|].
  unfold generate. rewrite Hids. simpl.
  split; [reflexivity|]. now intros text w' [= _ <-].
Qed.

(** C9, as the program has it (the design document has [generate] reject
    a configuration out of range before the loop, which it never does):
    [generate] never raises [InvalidConfiguration].  Whatever [top_k] and
    [temperature] are, a call with [max_length] at most 0 returns the
    decoding of the empty token list.  With room for at least one step, a
    [top_k] that is negative or larger than the number of scores, or a zero
    [temperature] with a [top_k] of at least 1, makes the first step raise
    torch's [RuntimeError].  With a configuration in range and a model that
    scores the whole vocabulary, the call returns.  A negative
    [temperature] is accepted: with [top_k] in range the call returns as
    well. *)
Theorem generate_no_validation (input : string) (w : Process) :
  generate input w <> Raise InvalidConfiguration /\
  ((max_length (config w) <= 0)%Z -> generate input w = Ok (decode [], w)) /\
  ((0 < max_length (config w))%Z ->
   ((top_k (config w) < 0)%Z
    \/ (Z.of_nat (length (model (encode input))) < top_k (config w))%Z
    \/ ((1 <= top_k (config w))%Z /\ temperature (config w) = 0)) ->
   generate input w = Raise RuntimeError) /\
  (forall vocabulary_size,
      (forall ids, length (model ids) = vocabulary_size) ->
      valid_config (config w) vocabulary_size ->
      exists text w', generate input w = Ok (text, w')) /\
  (forall vocabulary_size,
      (forall ids, length (model ids) = vocabulary_size) ->
      (1 <= top_k (config w) <= Z.of_nat vocabulary_size)%Z ->
      temperature (config w) < 0 ->
      exists text w', generate input w = Ok (text, w')).
Proof.
  split; [|split; [|split; [|split]]].
  - unfold generate, generate_ids.
    destruct (while_loop _ _ _ _) as [[[how ids'] w']|e|] eqn:Hloop;
      try discriminate.
    intros [= ->]. now apply while_loop_raise in Hloop.
  - intros Hmax. unfold generate.
    now rewrite generate_ids_no_room.
  - intros Hmax Hbad. unfold generate, generate_ids.
    rewrite (while_loop_throw _ _ _ _ RuntimeError); [reflexivity|lia|].
    apply body_no_distribution. unfold distribution.
    destruct (Torch.topk _ _) as [[values indices]|] eqn:Htop; [|reflexivity].
    apply TorchFacts.topk_inv in Htop as (Hk & _ & Hlen & _).
    destruct Hbad as [Hneg|[Hbig|[Hk1 Htemp]]]; [lia|lia|].
    unfold Torch.scaled.
    destruct values as [|v values]; [simpl in Hlen; lia|].
    destruct (Req_dec_T _ 0); [reflexivity|contradiction].
  - intros vocabulary_size Hvocab Hvalid.
    pose proof (generate_ids_total (encode input) w) as Htotal.
    unfold generate. unfold generate_ids in *.
    pose proof (while_loop_valid vocabulary_size
                  (S (Z.to_nat (max_length (config w))))
                  (Z.of_nat (length (encode input)) + max_length (config w))
                  (encode input) w Hvocab Hvalid) as Hraise.
    destruct (while_loop _ _ _ _) as [[[how ids'] w']|e|].
    + eexists _, _. reflexivity.
    + exfalso. eapply Hraise. reflexivity.
    + congruence.
  - intros vocabulary_size Hvocab Hk Ht.
    pose proof (generate_ids_total (encode input) w) as Htotal.
    unfold generate. unfold generate_ids in *.
    pose proof (while_loop_nonzero vocabulary_size
                  (S (Z.to_nat (max_length (config w))))
                  (Z.of_nat (length (encode input)) + max_length (config w))
                  (encode input) w Hvocab Hk ltac:(lra)) as Hraise.
    destruct (while_loop _ _ _ _) as [[[how ids'] w']|e|].
    + eexists _, _. reflexivity.
    + exfalso. eapply Hraise. reflexivity.
    + congruence.
Qed.

(** C10 (the probabilities of every step are in descending order, because
    the restriction returns its candidates by descending score and softmax
    is monotone, so the slice of the first three holds the three largest):
    with a positive temperature, the values [torch.topk] returned for the
    step are in descending order, so are the probabilities computed from
    them, and the first three probabilities are the three largest. *)
Theorem distribution_descending
    (input_ids : list nat) (c : Config)
    (probabilities : list R) (indices : list nat) :
  0 < temperature c ->
  distribution input_ids c = Some (probabilities, indices) ->
  (exists values,
      Torch.topk (model input_ids) (top_k c) = Some (values, indices) /\
      Torch.descending values /\
      probabilities
      = Torch.softmax (map (fun v => v / temperature c) values)) /\
  Torch.descending probabilities /\
  firstn 3 probabilities = Design.top3 probabilities.
Proof.
  intros Ht Hd.
  pose proof (distribution_descending_pos _ _ _ _ Ht Hd) as Hdesc.
  split; [|split; [exact Hdesc|symmetry; now apply top3_descending]].
  revert Hd. unfold distribution.
  destruct (Torch.topk _ _) as [[values indices']|] eqn:Htop; [|discriminate].
  destruct (Torch.scaled _ _) as [scores|] eqn:Hsc; [|discriminate].
  intros [= <- <-]. exists values.
  split; [reflexivity|].
  split; [eapply TorchFacts.topk_descending, Htop|].
  apply TorchFacts.scaled_inv in Hsc as [-> _]. reflexivity.
Qed.

End Statements.

(** ** The statements at the example runtime *)

Lemma generate_deterministic_witness :
  config (Example.start 5 4 1 (/ 2)) = config (Example.later 5 4 1 (/ 2)) /\
  generator (Example.start 5 4 1 (/ 2))
    = generator (Example.later 5 4 1 (/ 2)) /\
  generate_agree (@generate Example.flat "ab" (Example.start 5 4 1 (/ 2)))
                 (@generate Example.flat "ab" (Example.later 5 4 1 (/ 2))).
Proof.
  split; [reflexivity|]. split; [reflexivity|].
  apply (@generate_deterministic Example.flat); reflexivity.
Defined.

Lemma quarters_descending : Torch.descending Example.quarters.
Proof. unfold Example.quarters. repeat constructor; lra. Qed.

Lemma confidence_loss_top3_witness :
  Torch.descending Example.quarters /\
  confidence_loss Example.quarters = Design.penalty Example.quarters.
Proof.
  split; [exact quarters_descending|].
  exact (proj1 (@confidence_loss_top3 Example.flat Example.quarters
                  quarters_descending)).
Defined.

Lemma budget_stop_precedes_draw_witness :
  @distribution Example.flat [97; 98]%nat (mkConfig 5 4 1 (/ 4))
    = Some (Example.quarters, [0; 1; 2; 3]%nat) /\
  / 4 - confidence_loss Example.quarters < 0 /\
  exists w',
    @body Example.flat [97; 98]%nat (Example.start 5 4 1 (/ 4))
      = Break BudgetBreak [97; 98]%nat w' /\
    generator w' = generator (Example.start 5 4 1 (/ 4)).
Proof.
  assert (Hd : @distribution Example.flat [97; 98]%nat (mkConfig 5 4 1 (/ 4))
               = Some (Example.quarters, [0; 1; 2; 3]%nat))
    by apply ExampleFacts.flat_distribution.
  assert (Hlt : / 4 - confidence_loss Example.quarters < 0)
    by (unfold Example.quarters; rewrite ExampleFacts.flat_loss; lra).
  split; [exact Hd|]. split; [exact Hlt|].
  destruct (@budget_stop_precedes_draw Example.flat [97; 98]%nat
              (Example.start 5 4 1 (/ 4)) Example.quarters
              [0; 1; 2; 3]%nat Hd Hlt)
    as (w' & Hbody & _ & Hgen & _).
  exists w'. split; [exact Hbody | exact Hgen].
Defined.

Lemma generate_never_returns_eos_witness :
  @generate_ids Example.flat [97; 98]%nat (Example.start 5 4 1 (/ 2))
    = Ok {| how_left := BudgetBreak;
            generated_ids := [0%nat];
            after := @mkProcess Example.flat
                       (mkConfig 5 4 1 (/ 2 - 7 / 16 - 7 / 16))
                       [0; 0; 0; 0; 0] 2 |} /\
  ~ In 3%nat [0%nat].
Proof.
  split; [exact ExampleFacts.flat_first_call|].
  exact (proj1 (@generate_never_returns_eos Example.flat _ _ _
                  ExampleFacts.flat_first_call)).
Defined.

Lemma generate_bounded_witness :
  (0 <= 5)%Z /\
  @generate_ids Example.flat [97; 98]%nat (Example.start 5 4 1 (/ 2))
    = Ok {| how_left := BudgetBreak;
            generated_ids := [0%nat];
            after := @mkProcess Example.flat
                       (mkConfig 5 4 1 (/ 2 - 7 / 16 - 7 / 16))
                       [0; 0; 0; 0; 0] 2 |} /\
  (Z.of_nat (2 - 0) <= 5)%Z /\ (Z.of_nat 1 <= 5)%Z.
Proof.
  assert (Hmax : (0 <= max_length (config (Example.start 5 4 1 (/ 2))))%Z)
    by (simpl; lia).
  split; [exact Hmax|].
  split; [exact ExampleFacts.flat_first_call|].
  destruct (@generate_bounded Example.flat _ _ _ Hmax
              ExampleFacts.flat_first_call) as (Hcalls & Hlen & _).
  split; [exact Hcalls | exact Hlen].
Defined.

Lemma quarters_probability :
  Forall (fun x => 0 <= x) Example.quarters /\
  Torch.sum Example.quarters = 1.
Proof.
  unfold Example.quarters. split; [repeat constructor; lra | simpl; lra].
Qed.

Lemma charge_never_increases_witness :
  Forall (fun x => 0 <= x) Example.quarters /\
  Torch.sum Example.quarters = 1 /\
  0 <= confidence_loss Example.quarters /\
  1 - confidence_loss Example.quarters <= 1.
Proof.
  split; [exact (proj1 quarters_probability)|].
  split; [exact (proj2 quarters_probability)|].
  destruct (@charge_never_increases Example.flat Example.quarters 1
              (proj1 quarters_probability) (proj2 quarters_probability))
    as (Hloss & Hle & _).
  split; [exact Hloss | exact Hle].
Defined.

Lemma generate_zero_cap_witness :
  max_length (config (Example.start 0 4 1 (/ 2))) = 0%Z /\
  @generate Example.flat "ab" (Example.start 0 4 1 (/ 2))
    = Ok (EmptyString, Example.start 0 4 1 (/ 2)).
Proof.
  split; [reflexivity|].
  exact (proj1 (proj2 (@generate_zero_cap Example.flat "ab"
                         (Example.start 0 4 1 (/ 2)) eq_refl))).
Defined.

Lemma flat_valid_config :
  valid_config (config (Example.start 5 4 1 (/ 2))) 4.
Proof. unfold valid_config. simpl. repeat split; try lia; lra. Qed.

Lemma generate_no_validation_witness :
  valid_config (config (Example.start 5 4 1 (/ 2))) 4 /\
  (forall ids, length (@model Example.flat ids) = 4%nat) /\
  exists text w',
    @generate Example.flat "ab" (Example.start 5 4 1 (/ 2)) = Ok (text, w').
Proof.
  split; [exact flat_valid_config|].
  split; [intros ids; reflexivity|].
  exact (proj1 (proj2 (proj2 (proj2
                  (@generate_no_validation Example.flat "ab"
                     (Example.start 5 4 1 (/ 2))))))
           4%nat (fun ids => eq_refl) flat_valid_config).
Defined.

Lemma distribution_descending_witness :
  0 < temperature (mkConfig 5 4 1 (/ 2)) /\
  @distribution Example.flat [97; 98]%nat (mkConfig 5 4 1 (/ 2))
    = Some (Example.quarters, [0; 1; 2; 3]%nat) /\
  Torch.descending Example.quarters /\
  firstn 3 Example.quarters = Design.top3 Example.quarters.
Proof.
  assert (Ht : 0 < temperature (mkConfig 5 4 1 (/ 2))) by (simpl; lra).
  assert (Hd : @distribution Example.flat [97; 98]%nat (mkConfig 5 4 1 (/ 2))
               = Some (Example.quarters, [0; 1; 2; 3]%nat))
    by apply ExampleFacts.flat_distribution.
  split; [exact Ht|]. split; [exact Hd|].
  exact (proj2 (@distribution_descending Example.flat _ _ _ _ Ht Hd)).
Defined.

(** ** Where the program departs from the design document *)

(** C8 as stated fails: the value [generate] returns does not tell how the
    loop was left.  A call with [max_length] 0 and a call that runs out of
    confidence at its first step both return the empty text, the first
    through the length condition and the second through the budget
    break. *)
Lemma generate_text_hides_exit :
  ~ exists reason_of : string -> Exit,
      forall (w : @Process Example.flat) (g : @Generated Example.flat),
        @generate_ids Example.flat (@encode Example.flat "ab") w = Ok g ->
        reason_of (@decode Example.flat (generated_ids g)) = how_left g.
Proof.
  intros (reason_of & Hreason).
  assert (Hcap : @generate_ids Example.flat [97; 98]%nat
                   (Example.start 0 4 1 (/ 2))
                 = Ok {| how_left := ConditionFalse; generated_ids := [];
                         after := Example.start 0 4 1 (/ 2) |}).
  { apply generate_ids_no_room. simpl. lia. }
  assert (Hbudget : @generate_ids Example.flat [97; 98]%nat
                      (Example.start 5 4 1 (/ 4))
                    = Ok {| how_left := BudgetBreak; generated_ids := [];
                            after := @mkProcess Example.flat
                                       (mkConfig 5 4 1 (/ 4 - 7 / 16))
                                       [0; 0; 0; 0; 0; 0] 1 |}).
  { apply ExampleFacts.flat_exhausted_call; [lia | lra]. }
  apply Hreason in Hcap, Hbudget.
  simpl in Hcap, Hbudget. congruence.
Qed.

(** C9 as stated fails: a configuration with a negative [max_length], a
    [top_k] of 0 and a negative [temperature] is not rejected, the call
    returns the empty text; and a [top_k] of 5 over four scores is found
    out only by [torch.topk] in the first step, as a [RuntimeError]. *)
Lemma invalid_configuration_not_rejected :
  ~ valid_config (config (Example.start (-1) 0 (-1) (/ 2))) 4 /\
  @generate Example.flat "ab" (Example.start (-1) 0 (-1) (/ 2))
    = Ok (EmptyString, Example.start (-1) 0 (-1) (/ 2)) /\
  ~ valid_config (config (Example.start 5 5 1 (/ 2))) 4 /\
  @generate Example.flat "ab" (Example.start 5 5 1 (/ 2))
    = Raise RuntimeError.
Proof.
  split; [|split; [|split]].
  - unfold valid_config. simpl. lia.
  - unfold generate. rewrite generate_ids_no_room by (simpl; lia).
    reflexivity.
  - unfold valid_config. simpl. lia.
  - unfold generate, generate_ids.
    rewrite (while_loop_throw _ _ _ _ RuntimeError);
      [reflexivity | simpl; lia |].
    apply body_no_distribution. reflexivity.
Qed.

(** ** More about [generate]: what the loop does with its resources *)

Module TorchMore.
Import Torch.

Lemma firstn_subset_in {A} (n : nat) (l : list A) x :
  In x (firstn n l) -> In x l.
Proof.
  revert n. induction l as [|y l IH]; intros [|n]; simpl; try tauto.
  intros [->|H]; eauto.
Qed.

Lemma skipn_subset_in {A} (n : nat) (l : list A) x :
  In x (skipn n l) -> In x l.
Proof.
  revert n. induction l as [|y l IH]; intros [|n]; simpl; try tauto.
  intros H. eauto.
Qed.

Lemma insert_desc_in x y l : In y (insert_desc x l) <-> y = x \/ In y l.
Proof.
  induction l as [|z l IH]; simpl.
  - intuition congruence.
  - destruct (Rlt_dec (fst x) (fst z)); simpl; rewrite ?IH; intuition congruence.
Qed.

Lemma sort_desc_in y l : In y (sort_desc l) <-> In y l.
Proof.
  induction l as [|x l IH]; simpl; [tauto|].
  rewrite insert_desc_in, IH. intuition congruence.
Qed.

Lemma combine_seq_in (t : list R) (start : nat) v i :
  In (v, i) (combine t (seq start (length t))) <->
  (start <= i)%nat /\ nth_error t (i - start) = Some v.
Proof.
  revert start. induction t as [|x t IH]; intros start; simpl.
  - split; [tauto|]. intros [_ H]. destruct (i - start)%nat; discriminate.
  - rewrite IH. split.
    + intros [[= -> ->]|[Hle Hnth]].
      * rewrite Nat.sub_diag. auto.
      * replace (i - start)%nat with (S (i - S start)) by lia. split; [lia|assumption].
    + intros [Hle Hnth].
      destruct (i - start)%nat as [|n] eqn:Hn.
      * left. injection Hnth as ->. f_equal. lia.
      * right. split; [lia|]. replace (i - S start)%nat with n by lia. assumption.
Qed.

Lemma enumerate_in t v i :
  In (v, i) (enumerate t) <-> nth_error t i = Some v.
Proof.
  unfold enumerate. rewrite combine_seq_in, Nat.sub_0_r.
  split; [tauto|]. split; [lia|assumption].
Qed.

(** In a descending list every entry of a prefix is at least as large as
    every entry behind the prefix. *)
Lemma descending_split (n : nat) (l : list (R * nat)) x y :
  descending (map fst l) ->
  In x (firstn n l) -> In y (skipn n l) -> fst y <= fst x.
Proof.
  unfold descending. intros Hs.
  apply Sorted_StronglySorted in Hs; [|intros a b c Hab Hbc; lra].
  revert n. induction l as [|z l IH]; intros n.
  - rewrite firstn_nil. contradiction.
  - destruct n as [|n]; simpl; [contradiction|].
    inversion Hs as [|? ? Hs' Hall]; subst.
    intros [<-|Hx] Hy.
    + rewrite Forall_forall in Hall. apply Hall.
      apply in_map. eapply skipn_subset_in, Hy.
    + eapply IH; eassumption.
Qed.

(** The positions [torch.topk] returns: every one of them is a position of
    the tensor, and every position that is left out scores no higher than
    any that is kept. *)
Lemma topk_indices t k values indices :
  topk t k = Some (values, indices) ->
  (forall i, In i indices -> (i < length t)%nat) /\
  (forall i j,
      In i indices -> (j < length t)%nat -> ~ In j indices ->
      nth j t 0 <= nth i t 0).
Proof.
  unfold topk.
  destruct ((k <? 0) || (Z.of_nat (length t) <? k))%Z; [discriminate|].
  intros [= _ <-].
  set (s := sort_desc (enumerate t)).
  assert (Hin : forall v i, In (v, i) s <-> nth_error t i = Some v).
  { intros v i. unfold s. rewrite sort_desc_in. apply enumerate_in. }
  split.
  - intros i Hi. apply in_map_iff in Hi as ([v i'] & Heq & Htop).
    simpl in Heq. subst i'.
    apply firstn_subset_in in Htop. apply Hin in Htop.
    apply nth_error_Some. congruence.
  - intros i j Hi Hj Hnot.
    apply in_map_iff in Hi as ([v i'] & Heq & Htop).
    simpl in Heq. subst i'.
    assert (Hvi : nth_error t i = Some v).
    { apply Hin. eapply firstn_subset_in, Htop. }
    destruct (nth_error t j) as [u|] eqn:Hu;
      [|apply nth_error_None in Hu; lia].
    assert (Hjs : In (u, j) s) by (apply Hin, Hu).
    rewrite <- (firstn_skipn (Z.to_nat k) s) in Hjs.
    apply in_app_or in Hjs as [Hjtop|Hjrest].
    + exfalso. apply Hnot. apply in_map_iff. exists (u, j). auto.
    + rewrite (nth_error_nth _ _ _ Hvi), (nth_error_nth _ _ _ Hu).
      apply (descending_split (Z.to_nat k) s (v, i) (u, j));
        [apply TorchFacts.sort_desc_sorted | assumption | assumption].
Qed.

End TorchMore.

Section LoopResources.

Context {RT : Runtime}.

Lemma distribution_length input_ids c probabilities indices :
  distribution input_ids c = Some (probabilities, indices) ->
  length probabilities = Z.to_nat (top_k c) /\
  length indices = Z.to_nat (top_k c).
Proof.
  unfold distribution.
  destruct (Torch.topk _ _) as [[values indices']|] eqn:Htop; [|discriminate].
  destruct (Torch.scaled _ _) eqn:Hsc; [|discriminate].
  intros [= <- <-].
  apply TorchFacts.topk_inv in Htop as (_ & _ & Hv & Hi).
  apply TorchFacts.scaled_inv in Hsc as [-> _].
  rewrite TorchFacts.softmax_length, length_map. auto.
Qed.

Lemma distribution_among_best input_ids c probabilities indices token :
  distribution input_ids c = Some (probabilities, indices) ->
  In token indices ->
  among_best (model input_ids) (top_k c) token.
Proof.
  intros Hd Hin.
  destruct (distribution_length _ _ _ _ Hd) as [_ Hlen].
  revert Hd. unfold distribution.
  destruct (Torch.topk _ _) as [[values indices']|] eqn:Htop; [|discriminate].
  destruct (Torch.scaled _ _); [|discriminate].
  intros [= _ ->].
  destruct (TorchMore.topk_indices _ _ _ _ Htop) as [Hrange Hbest].
  split; [apply Hrange, Hin|].
  exists indices. split; [exact Hlen|]. split; [exact Hin|].
  intros j Hj Hlt.
  destruct (in_dec Nat.eq_dec j indices) as [Hjin|Hjout]; [assumption|].
  pose proof (Hbest token j Hin Hj Hjout). lra.
Qed.

Lemma body_draws input_ids w : body_draws_post input_ids w (body input_ids w).
Proof.
  destruct (distribution input_ids (config w)) as [[probabilities indices]|] eqn:Hd.
  - destruct (Rlt_dec (confidence (config w) - confidence_loss probabilities) 0)
      as [Hlt|Hge].
    + rewrite (body_budget _ _ _ _ Hd Hlt). reflexivity.
    + rewrite (body_draw _ _ _ _ Hd Hge). unfold multinomial, advance. simpl.
      destruct probabilities as [|x p]; [exact I|].
      destruct (uniform (generator w)) as [u g'] eqn:Hu. simpl.
      destruct (nth_error indices _) as [next_token|] eqn:Hnth; [|exact I].
      destruct (Nat.eqb next_token eos_token_id); simpl;
        unfold advance; rewrite Hu; simpl.
      * reflexivity.
      * split; [reflexivity|]. exists next_token. split; [reflexivity|].
        eapply distribution_among_best; [exact Hd|].
        eapply nth_error_In, Hnth.
  - rewrite (body_no_distribution _ _ Hd). exact I.
Qed.

Lemma iter_advance_shift (n : nat) (g : Rng) :
  Nat.iter n advance (advance g) = Nat.iter (S n) advance g.
Proof.
  induction n as [|n IH]; simpl; [reflexivity|]. now rewrite IH.
Qed.

(** The generator the loop leaves behind, and where each appended token
    came from. *)
Lemma while_loop_draws fuel max_total_length input_ids w how input_ids' w' :
  while_loop fuel max_total_length input_ids w = Ok (how, input_ids', w') ->
  exists suffix,
    input_ids' = input_ids ++ suffix /\
    generator w'
    = Nat.iter (match how with
                | EosBreak => S (length suffix)
                | _ => length suffix
                end) advance (generator w) /\
    forall before token behind,
      suffix = before ++ token :: behind ->
      among_best (model (input_ids ++ before)) (top_k (config w)) token.
Proof.
  revert input_ids w.
  induction fuel as [|fuel IH]; intros input_ids w; simpl; [discriminate|].
  destruct (_ <? _)%Z.
  - pose proof (body_draws input_ids w) as Hdraw.
    pose proof (body_inv input_ids w) as Hpost.
    destruct (body input_ids w) as [ids1 w1|how1 ids1 w1|e]; [| |discriminate].
    + destruct Hdraw as (Hg & token & -> & Hbest).
      destruct Hpost as (_ & (_ & Hk & _) & _).
      intros Hloop.
      apply IH in Hloop as (suffix & -> & Hgen & Htokens).
      exists (token :: suffix). rewrite <- app_assoc. simpl.
      split; [reflexivity|]. split.
      * rewrite Hgen, Hg.
        destruct how; rewrite iter_advance_shift; reflexivity.
      * intros before token' behind Hsplit.
        destruct before as [|t before]; simpl in Hsplit.
        -- injection Hsplit as <- _. now rewrite app_nil_r.
        -- injection Hsplit as <- Hsplit.
           specialize (Htokens before token' behind Hsplit).
           rewrite <- app_assoc, Hk in Htokens. exact Htokens.
    + destruct Hpost as (-> & _).
      intros [= -> -> ->]. exists []. rewrite app_nil_r.
      split; [reflexivity|]. split.
      * destruct how; simpl in *; assumption.
      * intros [|t before] token behind Hsplit; discriminate.
  - intros [= <- <- <-]. exists []. rewrite app_nil_r.
    split; [reflexivity|]. split; [reflexivity|].
    intros [|t before] token behind Hsplit; discriminate.
Qed.

(** With at most three candidates the loss of a step is 0. *)
Lemma confidence_loss_few input_ids c probabilities indices :
  (1 <= top_k c <= 3)%Z ->
  distribution input_ids c = Some (probabilities, indices) ->
  confidence_loss probabilities = 0.
Proof.
  intros Hk Hd.
  destruct (distribution_length _ _ _ _ Hd) as [Hlen _].
  destruct (distribution_probabilities _ _ _ _ Hd) as [_ Hsum].
  unfold confidence_loss.
  rewrite TorchFacts.firstn_short by lia.
  rewrite Hsum; [lra|].
  intros ->. simpl in Hlen. lia.
Qed.

Lemma body_few_candidates input_ids w w' :
  (1 <= top_k (config w) <= 3)%Z ->
  outcome_process (body input_ids w) = Some w' ->
  confidence (config w') = confidence (config w).
Proof.
  intros Hk Hw'.
  destruct (distribution input_ids (config w)) as [[probabilities indices]|] eqn:Hd.
  - rewrite (body_confidence _ _ _ _ _ Hd Hw').
    rewrite (confidence_loss_few _ _ _ _ Hk Hd). lra.
  - rewrite (body_no_distribution _ _ Hd) in Hw'. discriminate.
Qed.

Lemma while_loop_few_candidates fuel max_total_length input_ids w how input_ids' w' :
  (1 <= top_k (config w) <= 3)%Z ->
  while_loop fuel max_total_length input_ids w = Ok (how, input_ids', w') ->
  confidence (config w') = confidence (config w).
Proof.
  revert input_ids w.
  induction fuel as [|fuel IH]; intros input_ids w Hk; simpl; [discriminate|].
  destruct (_ <? _)%Z; [|now intros [= _ _ <-]].
  pose proof (body_few_candidates input_ids w) as Hsame.
  pose proof (body_inv input_ids w) as Hpost.
  destruct (body input_ids w) as [ids1 w1|how1 ids1 w1|e]; [| |discriminate].
  - destruct Hpost as (_ & (_ & Hk1 & _) & _).
    intros Hloop. apply IH in Hloop; [|now rewrite Hk1].
    rewrite Hloop. apply Hsame; [exact Hk | reflexivity].
  - intros [= _ _ <-]. apply Hsame; [exact Hk | reflexivity].
Qed.

End LoopResources.

Section MoreOfGenerate.

Context {RT : Runtime}.

(** With one to three candidates per step the probabilities of a step are
    all inside the slice [probabilities[:3]] and sum to 1, so nothing is
    ever charged: a call that returns leaves [Config.confidence] as it
    found it, and a confidence that was not negative never stops the
    loop. *)
Theorem generate_few_candidates
    (input_ids : list nat) (w : Process) (g : Generated) :
  (1 <= top_k (config w) <= 3)%Z ->
  generate_ids input_ids w = Ok g ->
  confidence (config (after g)) = confidence (config w) /\
  (0 <= confidence (config w) -> how_left g <> BudgetBreak).
Proof.
  intros Hk Hgen.
  destruct (generate_ids_inv _ _ _ Hgen) as (input_ids' & Hloop & _).
  pose proof (while_loop_few_candidates _ _ _ _ _ _ _ Hk Hloop) as Hsame.
  split; [exact Hsame|].
  intros Hpos Hbudget.
  apply while_loop_inv in Hloop as (suffix & _ & _ & _ & _ & Hhow).
  rewrite Hbudget in Hhow. destruct Hhow as (_ & _ & Hneg). lra.
Qed.

(** For a cap that is not negative, the loop is left through its length
    condition exactly when the call returns [max_length] tokens; a call
    that stops on the confidence or on the end token returns fewer. *)
Theorem generate_full_length
    (input_ids : list nat) (w : Process) (g : Generated) :
  (0 <= max_length (config w))%Z ->
  generate_ids input_ids w = Ok g ->
  (how_left g = ConditionFalse <->
   Z.of_nat (length (generated_ids g)) = max_length (config w)).
Proof.
  intros Hmax Hgen.
  destruct (generate_ids_inv _ _ _ Hgen) as (input_ids' & Hloop & Hids).
  apply while_loop_inv in Hloop as (suffix & _ & _ & _ & _ & Hhow).
  assert (Hlen : length input_ids'
                 = (length input_ids + length (generated_ids g))%nat).
  { rewrite Hids. apply length_app. }
  rewrite Hlen in Hhow.
  destruct (how_left g).
  - destruct Hhow as (_ & Hroom & _). split; [discriminate | lia].
  - destruct Hhow as (_ & Hroom & _). split; [discriminate | lia].
  - destruct Hhow as (_ & Hroom & _). split; [lia | reflexivity].
Qed.

(** When a call starts with a confidence that is not negative, it leaves
    [Config.confidence] negative exactly when it was the confidence that
    stopped the loop. *)
Theorem generate_budget_exit
    (input_ids : list nat) (w : Process) (g : Generated) :
  0 <= confidence (config w) ->
  generate_ids input_ids w = Ok g ->
  (how_left g = BudgetBreak <-> confidence (config (after g)) < 0).
Proof.
  intros Hpos Hgen.
  destruct (generate_ids_inv _ _ _ Hgen) as (input_ids' & Hloop & _).
  apply while_loop_inv in Hloop as (suffix & _ & _ & _ & _ & Hhow).
  destruct (how_left g).
  - destruct Hhow as (_ & _ & Hneg). tauto.
  - destruct Hhow as (_ & _ & Hge). split; [discriminate | lra].
  - destruct Hhow as (_ & _ & Hid & Hge).
    split; [discriminate|]. intros Hneg.
    destruct suffix as [|t suffix].
    + rewrite (Hid eq_refl) in Hneg. lra.
    + assert (0 <= confidence (config (after g))) by (apply Hge; discriminate).
      lra.
Qed.

(** A call that returns has run the scoring model once for every token it
    returns and once more for the step that broke out of the loop, if one
    did. *)
Theorem generate_model_runs
    (input_ids : list nat) (w : Process) (g : Generated) :
  generate_ids input_ids w = Ok g ->
  scorer_calls (after g) = (scorer_calls w + steps g)%nat.
Proof.
  intros Hgen.
  destruct (generate_ids_inv _ _ _ Hgen) as (input_ids' & Hloop & Hids).
  apply while_loop_inv in Hloop as (suffix & Heq & _ & _ & _ & Hhow).
  assert (Hsuffix : suffix = generated_ids g).
  { rewrite Hids in Heq. now apply app_inv_head in Heq. }
  subst suffix. unfold steps.
  destruct (how_left g).
  - destruct Hhow as (Hq & _). lia.
  - destruct Hhow as (Hq & _). lia.
  - destruct Hhow as (Hq & _). lia.
Qed.

(** A call that returns has taken one variate from the random generator for
    every token it returns, one more when the draw of the end token stopped
    it, and none on the step where the confidence ran out. *)
Theorem generate_draws
    (input_ids : list nat) (w : Process) (g : Generated) :
  generate_ids input_ids w = Ok g ->
  generator (after g) = Nat.iter (draws g) advance (generator w).
Proof.
  intros Hgen.
  destruct (generate_ids_inv _ _ _ Hgen) as (input_ids' & Hloop & Hids).
  apply while_loop_draws in Hloop as (suffix & Heq & Hg & _).
  assert (Hsuffix : suffix = generated_ids g).
  { rewrite Hids in Heq. now apply app_inv_head in Heq. }
  subst suffix. rewrite Hg. unfold draws.
  destruct (how_left g); reflexivity.
Qed.

(** Every token a call returns was, at the step that drew it, one of the
    [top_k] best of the scores the model gave for the sequence before it:
    a position of the score tensor, in a set of [top_k] positions that
    holds every position with a strictly higher score. *)
Theorem generate_tokens_among_best
    (input_ids : list nat) (w : Process) (g : Generated)
    (before : list nat) (token : nat) (behind : list nat) :
  generate_ids input_ids w = Ok g ->
  generated_ids g = before ++ token :: behind ->
  among_best (model (input_ids ++ before)) (top_k (config w)) token.
Proof.
  intros Hgen Hsplit.
  destruct (generate_ids_inv _ _ _ Hgen) as (input_ids' & Hloop & Hids).
  apply while_loop_draws in Hloop as (suffix & Heq & _ & Htokens).
  assert (Hsuffix : suffix = generated_ids g).
  { rewrite Hids in Heq. now apply app_inv_head in Heq. }
  subst suffix. eapply Htokens, Hsplit.
Qed.

(** Once [Config.confidence] is negative, a call returns no token and
    draws no random number; it leaves the loop at its first charge, or
    through the length condition when there is no room for a step, and the
    confidence stays negative for the calls that follow. *)
Theorem generate_after_exhaustion
    (input_ids : list nat) (w : Process) (g : Generated) :
  confidence (config w) < 0 ->
  generate_ids input_ids w = Ok g ->
  generated_ids g = [] /\
  how_left g <> EosBreak /\
  generator (after g) = generator w /\
  confidence (config (after g)) < 0.
Proof.
  intros Hneg Hgen.
  destruct (generate_ids_exhausted _ _ _ Hneg Hgen) as [Hnone Hafter].
  destruct (generate_ids_inv _ _ _ Hgen) as (input_ids' & Hloop & Hids).
  assert (Hexit : how_left g <> EosBreak).
  { intros Heos.
    apply while_loop_inv in Hloop as (suffix & _ & _ & _ & _ & Hhow).
    rewrite Heos in Hhow. destruct Hhow as (_ & _ & Hge). lra. }
  split; [exact Hnone|]. split; [exact Hexit|]. split; [|exact Hafter].
  apply while_loop_draws in Hloop as (suffix & Heq & Hg & _).
  assert (Hsuffix : suffix = generated_ids g).
  { rewrite Hids in Heq. now apply app_inv_head in Heq. }
  subst suffix. rewrite Hnone in Hg. rewrite Hg.
  destruct (how_left g); [reflexivity | contradiction | reflexivity].
Qed.

End MoreOfGenerate.

(** ** The training set: windows and targets *)

Module TrainingFacts.
Import Training.

Lemma rows_of_length {A} (rows cols : nat) (t : list A) :
  length (rows_of rows cols t) = rows.
Proof.
  revert t. induction rows as [|rows IH]; intros t; simpl; [reflexivity|].
  now rewrite IH.
Qed.

Lemma rows_of_width {A} (rows cols : nat) (t : list A) :
  (rows * cols <= length t)%nat ->
  Forall (fun row => length row = cols) (rows_of rows cols t).
Proof.
  revert t. induction rows as [|rows IH]; intros t Hlen; simpl;
    constructor.
  - rewrite length_firstn. simpl in Hlen. lia.
  - apply IH. rewrite length_skipn. simpl in Hlen. lia.
Qed.

Lemma firstn_plus {A} (n m : nat) (t : list A) :
  firstn (n + m) t = firstn n t ++ firstn m (skipn n t).
Proof.
  revert t. induction n as [|n IH]; intros t; simpl; [reflexivity|].
  destruct t as [|x t]; simpl.
  - now rewrite firstn_nil.
  - now rewrite IH.
Qed.

Lemma rows_of_concat {A} (rows cols : nat) (t : list A) :
  concat (rows_of rows cols t) = firstn (rows * cols) t.
Proof.
  revert t. induction rows as [|rows IH]; intros t; simpl; [reflexivity|].
  now rewrite IH, firstn_plus.
Qed.

Lemma rows_of_firstn {A} (rows cols : nat) (t : list A) :
  rows_of rows cols (firstn (rows * cols) t) = rows_of rows cols t.
Proof.
  revert t. induction rows as [|rows IH]; intros t; simpl; [reflexivity|].
  f_equal.
  - rewrite firstn_firstn. f_equal. lia.
  - rewrite skipn_firstn_comm.
    replace (cols + rows * cols - cols)%nat with (rows * cols)%nat by lia.
    apply IH.
Qed.

Lemma map_dataset_total {A B} (f : A -> option B) (g : A -> B) (ds : list A) :
  (forall a, f a = Some (g a)) -> map_dataset f ds = Some (map g ds).
Proof.
  intros Hf. induction ds as [|a ds IH]; simpl; [reflexivity|].
  now rewrite Hf, IH.
Qed.

Section DatasetFacts.

Variable strings_split : string -> list string.
Variable word_mapping : string -> nat.

Lemma examples_from_line_windows line :
  examples_from_line strings_split line = Some (windows strings_split line).
Proof.
  unfold examples_from_line, windows, reshape.
  set (tokens := strings_split line).
  set (n := length tokens).
  assert (Hdiv : (n - n mod SEQ_LENGTH = n / SEQ_LENGTH * SEQ_LENGTH)%nat).
  { pose proof (Nat.div_mod_eq n SEQ_LENGTH). lia. }
  assert (Hle : (n / SEQ_LENGTH * SEQ_LENGTH <= n)%nat).
  { pose proof (Nat.div_mod_eq n SEQ_LENGTH). lia. }
  rewrite Hdiv, Nat.div_mul by discriminate.
  rewrite length_firstn, Nat.min_l by exact Hle.
  rewrite Nat.eqb_refl. f_equal.
  apply rows_of_firstn.
Qed.

Lemma windows_length line :
  length (windows strings_split line)
  = (length (strings_split line) / SEQ_LENGTH)%nat.
Proof. unfold windows. apply rows_of_length. Qed.

Lemma windows_width line :
  Forall (fun example => length example = SEQ_LENGTH)
         (windows strings_split line).
Proof.
  unfold windows. apply rows_of_width.
  pose proof (Nat.div_mod_eq (length (strings_split line)) SEQ_LENGTH). lia.
Qed.

Lemma add_targets_lengths (x : list string) :
  length (fst (add_targets word_mapping x)) = (length x - 1)%nat /\
  length (snd (add_targets word_mapping x)) = (length x - 1)%nat.
Proof.
  unfold add_targets. simpl.
  rewrite removelast_firstn_len, length_firstn, length_map.
  destruct x as [|t x]; simpl; lia.
Qed.

(** [examples_from_line] never fails.  It returns one example for every
    full [SEQ_LENGTH] tokens of the line, each of exactly [SEQ_LENGTH]
    tokens; put end to end the examples are the tokens of the line without
    the last [n mod SEQ_LENGTH] of them, so fewer than [SEQ_LENGTH] tokens
    are dropped and none is reordered or repeated. *)
Theorem examples_from_line_windowing (line : string) :
  exists examples,
    examples_from_line strings_split line = Some examples /\
    length examples = (length (strings_split line) / SEQ_LENGTH)%nat /\
    Forall (fun example => length example = SEQ_LENGTH) examples /\
    concat examples
    = firstn (length (strings_split line)
              - length (strings_split line) mod SEQ_LENGTH)
             (strings_split line) /\
    (length (strings_split line) - length (concat examples) < SEQ_LENGTH)%nat.
Proof.
  exists (windows strings_split line).
  split; [apply examples_from_line_windows|].
  split; [apply windows_length|].
  split; [apply windows_width|].
  set (tokens := strings_split line).
  assert (Hdiv : (length tokens - length tokens mod SEQ_LENGTH
                  = length tokens / SEQ_LENGTH * SEQ_LENGTH)%nat).
  { pose proof (Nat.div_mod_eq (length tokens) SEQ_LENGTH). lia. }
  assert (Hcat : concat (windows strings_split line)
                 = firstn (length tokens - length tokens mod SEQ_LENGTH) tokens).
  { unfold windows. fold tokens. rewrite rows_of_concat. now rewrite Hdiv. }
  split; [exact Hcat|].
  rewrite Hcat, length_firstn.
  pose proof (Nat.mod_upper_bound (length tokens) SEQ_LENGTH ltac:(discriminate)).
  lia.
Qed.

(** [add_targets] pairs every token of an example except the last with the
    looked-up token that follows it: inputs and targets both have one entry
    less than the example, input [i] is token [i] and target [i] is the
    index of token [i + 1]. *)
Theorem add_targets_shifted (x : list string) :
  length (fst (add_targets word_mapping x)) = (length x - 1)%nat /\
  length (snd (add_targets word_mapping x)) = (length x - 1)%nat /\
  forall i, (i + 1 < length x)%nat ->
    nth_error (fst (add_targets word_mapping x)) i = nth_error x i /\
    nth_error (snd (add_targets word_mapping x)) i
    = option_map word_mapping (nth_error x (S i)).
Proof.
  destruct (add_targets_lengths x) as [Hin Htg].
  split; [exact Hin|]. split; [exact Htg|].
  intros i Hi. unfold add_targets. simpl. split.
  - rewrite removelast_firstn_len, nth_error_firstn.
    destruct (Nat.ltb_spec i (Nat.pred (length x))); [reflexivity | lia].
  - rewrite nth_error_map. destruct x; [simpl in Hi; lia | reflexivity].
Qed.

(** The pipeline [map(examples_from_line).unbatch().map(add_targets)]
    never fails.  It yields as many training pairs as the lines hold full
    windows of [SEQ_LENGTH] tokens, each pair made of [SEQ_LENGTH - 1]
    inputs and as many targets; lines with fewer than [SEQ_LENGTH] tokens
    add nothing. *)
Theorem examples_with_targets_count (lines : list string) :
  exists pairs,
    examples_with_targets strings_split word_mapping lines = Some pairs /\
    length pairs
    = list_sum (map (fun line => length (strings_split line) / SEQ_LENGTH)%nat
                    lines) /\
    Forall (fun pair => length (fst pair) = (SEQ_LENGTH - 1)%nat /\
                        length (snd pair) = (SEQ_LENGTH - 1)%nat) pairs /\
    ((forall line, In line lines ->
                   (length (strings_split line) < SEQ_LENGTH)%nat) ->
     pairs = []).
Proof.
  unfold examples_with_targets.
  rewrite (map_dataset_total _ (windows strings_split))
    by apply examples_from_line_windows.
  eexists. split; [reflexivity|].
  assert (Hlen : forall ls,
             length (concat (map (windows strings_split) ls))
             = list_sum (map (fun line =>
                                length (strings_split line) / SEQ_LENGTH)%nat ls)).
  { induction ls as [|l ls IH]; simpl; [reflexivity|].
    now rewrite length_app, windows_length, IH. }
  split; [now rewrite length_map, Hlen|]. split.
  - apply Forall_map, Forall_concat, Forall_map, Forall_forall.
    intros line _. eapply Forall_impl; [|apply windows_width].
    intros example Hex.
    destruct (add_targets_lengths example) as [H1 H2].
    rewrite Hex in H1, H2. exact (conj H1 H2).
  - intros Hshort.
    assert (Hnil : length (concat (map (windows strings_split) lines)) = O).
    { rewrite Hlen. clear Hlen.
      induction lines as [|l ls IH]; [reflexivity|].
      cbn [map list_sum fold_right].
      rewrite Nat.div_small by (apply Hshort; left; reflexivity).
      apply IH. intros line Hin. apply Hshort. right. exact Hin. }
    destruct (concat _); [reflexivity | discriminate].
Qed.

End DatasetFacts.

End TrainingFacts.

(** ** Suggestions: the mask on the unknown word *)

Module PredictionFacts.
Import Prediction.

Lemma one_hot_rest (start depth : nat) :
  map (Nat.eqb 0) (seq (S start) depth) = repeat false depth.
Proof.
  revert start. induction depth as [|depth IH]; intros start; simpl;
    [reflexivity|].
  f_equal. apply IH.
Qed.

Lemma one_hot_first (depth : nat) :
  one_hot 0 (S depth) = true :: repeat false depth.
Proof.
  unfold one_hot. simpl. f_equal. apply one_hot_rest.
Qed.

Lemma subtract_rest (rest : list R) :
  map (fun entry : R * bool => if snd entry then NegInf else Finite (fst entry))
      (combine rest (repeat false (length rest)))
  = map Finite rest.
Proof.
  induction rest as [|x rest IH]; simpl; [reflexivity|]. now rewrite IH.
Qed.

Lemma subtract_unk (x : R) (rest : list R) :
  subtract (x :: rest) (one_hot 0 (length (x :: rest)))
  = NegInf :: map Finite rest.
Proof.
  unfold subtract. simpl length. rewrite one_hot_first. simpl.
  f_equal. apply subtract_rest.
Qed.

Lemma exp_masked_finite (rest : list R) :
  map exp_masked (map Finite rest) = map exp rest.
Proof. rewrite map_map. reflexivity. Qed.

Lemma sum_masked (l : list R) :
  Torch.sum (map exp_masked (NegInf :: map Finite l)) = Torch.sum (map exp l).
Proof.
  rewrite map_cons, exp_masked_finite.
  change (Torch.sum (exp_masked NegInf :: map exp l))
    with (0 + Torch.sum (map exp l)).
  lra.
Qed.

Lemma softmax_masked_unk (l : list R) :
  l <> [] ->
  softmax_masked (NegInf :: map Finite l) = Some (0 :: Torch.softmax l).
Proof.
  intros Hl. unfold softmax_masked.
  assert (Hfin : existsb is_finite (NegInf :: map Finite l) = true).
  { destruct l; [contradiction | reflexivity]. }
  rewrite Hfin, sum_masked. f_equal.
  rewrite map_cons. f_equal.
  - simpl. lra.
  - unfold Torch.softmax. rewrite map_map. reflexivity.
Qed.

(** The row of probabilities for a row of at least two scores. *)
Lemma masked_row (x y : R) (rest : list R) :
  softmax_masked (subtract (x :: y :: rest)
                    (one_hot 0 (length (x :: y :: rest))))
  = Some (0 :: Torch.softmax (y :: rest)).
Proof.
  rewrite subtract_unk. apply softmax_masked_unk. discriminate.
Qed.

Lemma insert_desc_smallest (x : R * nat) (l : list (R * nat)) :
  (forall y, In y l -> fst x < fst y) ->
  Torch.insert_desc x l = l ++ [x].
Proof.
  induction l as [|y l IH]; simpl; intros Hall; [reflexivity|].
  destruct (Rlt_dec (fst x) (fst y)) as [_|Hge].
  - f_equal. apply IH. intros z Hz. apply Hall. right. exact Hz.
  - exfalso. apply Hge. apply Hall. left. reflexivity.
Qed.

(** For probabilities that are 0 at position 0 and positive elsewhere, the
    selection of fewer entries than there are leaves position 0 out. *)
Lemma topk_skips_zero (q : list R) (k : Z) values indices :
  Forall (fun x => 0 < x) q ->
  (k <= Z.of_nat (length q))%Z ->
  Torch.topk (0 :: q) k = Some (values, indices) ->
  Forall (fun i => (1 <= i)%nat) indices.
Proof.
  intros Hq Hk. unfold Torch.topk.
  destruct ((k <? 0) || (Z.of_nat (length (0%R :: q)) <? k))%Z;
    [discriminate|].
  intros [= _ <-].
  change (Torch.enumerate (0 :: q))
    with ((0, O) :: combine q (seq 1 (length q))).
  change (Torch.sort_desc ((0, O) :: combine q (seq 1 (length q))))
    with (Torch.insert_desc (0, O)
            (Torch.sort_desc (combine q (seq 1 (length q))))).
  set (s := Torch.sort_desc (combine q (seq 1 (length q)))).
  assert (Hs : forall y, In y s -> 0 < fst y /\ (1 <= snd y)%nat).
  { intros [v i] Hy. unfold s in Hy.
    apply TorchMore.sort_desc_in, TorchMore.combine_seq_in in Hy as [Hle Hnth].
    split; [|exact Hle]. simpl.
    rewrite Forall_forall in Hq. eapply Hq, nth_error_In, Hnth. }
  rewrite insert_desc_smallest by (intros y Hy; apply Hs, Hy).
  assert (Hlen : length s = length q).
  { unfold s. rewrite TorchFacts.sort_desc_length, length_combine, length_seq.
    apply Nat.min_id. }
  rewrite firstn_app.
  replace (Z.to_nat k - length s)%nat with O by lia.
  rewrite firstn_O, app_nil_r.
  apply Forall_map, Forall_forall. intros y Hy.
  apply TorchMore.firstn_subset_in in Hy. apply Hs, Hy.
Qed.

Lemma softmax_nth (t : list R) (n : nat) :
  (n < length t)%nat ->
  nth n (Torch.softmax t) 0 = exp (nth n t 0) / Torch.sum (map exp t).
Proof.
  intros Hn. unfold Torch.softmax.
  rewrite (nth_indep _ 0 (exp 0 / Torch.sum (map exp t)))
    by (now rewrite length_map).
  apply (map_nth (fun x => exp x / Torch.sum (map exp t))).
Qed.

Section SuggestFacts.

Variable model : list string -> list (list R).
Variable strings_split : string -> list string.

(** When every row of scores has at least two entries, every row of
    probabilities gives the unknown word (position 0) the probability 0 and
    the other words the softmax of their own scores: positive
    probabilities that sum to 1. *)
Theorem unknown_word_masked (x : list string) :
  (forall row, In row (model x) -> (2 <= length row)%nat) ->
  get_prediction_probs model x
  = map (fun row => Some (0 :: Torch.softmax (tl row))) (model x) /\
  (forall probs,
      In (Some probs) (get_prediction_probs model x) ->
      nth 0 probs 1 = 0 /\
      Forall (fun p => 0 < p) (tl probs) /\
      Torch.sum probs = 1).
Proof.
  intros Hrows.
  assert (Heq : get_prediction_probs model x
                = map (fun row => Some (0 :: Torch.softmax (tl row))) (model x)).
  { unfold get_prediction_probs. apply map_ext_in. intros row Hrow.
    specialize (Hrows row Hrow).
    destruct row as [|a [|b rest]]; simpl in Hrows; try lia.
    apply masked_row. }
  split; [exact Heq|].
  intros probs Hin. rewrite Heq in Hin.
  apply in_map_iff in Hin as (row & [= <-] & Hrow).
  specialize (Hrows row Hrow).
  destruct row as [|a [|b rest]]; simpl in Hrows; try lia.
  cbn [tl nth].
  split; [reflexivity|]. split; [apply TorchFacts.softmax_pos|].
  change (Torch.sum (0 :: Torch.softmax (b :: rest)))
    with (0 + Torch.sum (Torch.softmax (b :: rest))).
  rewrite TorchFacts.softmax_sum by discriminate. lra.
Qed.

(** With rows of [vocab_size] scores and fewer suggestions asked for than
    there are words, the [k] positions suggested for a sentence never
    include the unknown word, all lie inside the vocabulary, and are the
    best known words by the scores of the last token: a known word that
    scores strictly higher than a suggested one is suggested as well. *)
Theorem suggestions_are_known_words
    (k : Z) (sentence : string) (vocab_size : nat) (indices : list nat) :
  (forall row, In row (model (strings_split sentence)) ->
               length row = vocab_size) ->
  (k < Z.of_nat vocab_size)%Z ->
  suggested_indices model strings_split k sentence = Some indices ->
  length indices = Z.to_nat k /\
  Forall (fun i => (1 <= i < vocab_size)%nat) indices /\
  (forall i j,
      In i indices -> (1 <= j < vocab_size)%nat ->
      nth i (last (model (strings_split sentence)) []) 0
      < nth j (last (model (strings_split sentence)) []) 0 ->
      In j indices).
Proof.
  intros Hwidth Hk. unfold suggested_indices, tokens_from_sentence,
    get_prediction_probs, top_k.
  set (rows := model (strings_split sentence)) in *.
  rewrite <- map_rev.
  destruct (rev rows) as [|last_row earlier] eqn:Hrev; [discriminate|].
  assert (Hrows : rows = rev earlier ++ [last_row]).
  { rewrite <- (rev_involutive rows), Hrev. reflexivity. }
  assert (Hlast : last rows [] = last_row).
  { rewrite Hrows. apply last_last. }
  assert (Hw : length last_row = vocab_size).
  { apply Hwidth. rewrite Hrows. apply in_or_app. right. left. reflexivity. }
  rewrite Hlast. cbn [map].
  destruct last_row as [|a [|b rest]].
  - (* no score at all: k is negative and top_k fails *)
    simpl in Hw. subst vocab_size. simpl.
    unfold Torch.topk.
    destruct (Z.ltb_spec k 0); [discriminate | lia].
  - discriminate.
  - rewrite masked_row.
    destruct (Torch.topk _ k) as [[values indices']|] eqn:Htop; [|discriminate].
    intros [= ->].
    assert (Hpos : Forall (fun x => 0 < x) (Torch.softmax (b :: rest)))
      by apply TorchFacts.softmax_pos.
    assert (Hq : length (Torch.softmax (b :: rest)) = length (b :: rest))
      by apply TorchFacts.softmax_length.
    assert (Hkq : (k <= Z.of_nat (length (Torch.softmax (b :: rest))))%Z).
    { rewrite Hq. simpl in Hw |- *. lia. }
    pose proof (topk_skips_zero _ _ _ _ Hpos Hkq Htop) as Hone.
    destruct (TorchFacts.topk_inv _ _ _ _ Htop) as (_ & _ & _ & Hlen).
    destruct (TorchMore.topk_indices _ _ _ _ Htop) as [Hrange Hbest].
    assert (Hsize : length (0 :: Torch.softmax (b :: rest)) = vocab_size).
    { change (length (0 :: Torch.softmax (b :: rest)))
        with (S (length (Torch.softmax (b :: rest)))).
      rewrite Hq. exact Hw. }
    rewrite Hsize in Hrange, Hbest.
    split; [exact Hlen|]. split.
    + apply Forall_forall. intros i Hi.
      rewrite Forall_forall in Hone. split; [apply Hone, Hi | apply Hrange, Hi].
    + intros i j Hi Hj Hlt.
      destruct (in_dec Nat.eq_dec j indices) as [Hjin|Hjout]; [exact Hjin|].
      exfalso.
      assert (Hi1 : (1 <= i < vocab_size)%nat).
      { rewrite Forall_forall in Hone. split; [apply Hone, Hi | apply Hrange, Hi]. }
      pose proof (Hbest i j Hi (proj2 Hj) Hjout) as Hle.
      destruct i as [|i]; [lia|]. destruct j as [|j]; [lia|].
      change (nth (S i) (a :: b :: rest) 0)
        with (nth i (b :: rest) 0) in Hlt.
      change (nth (S j) (a :: b :: rest) 0)
        with (nth j (b :: rest) 0) in Hlt.
      change (nth (S i) (0 :: Torch.softmax (b :: rest)) 0)
        with (nth i (Torch.softmax (b :: rest)) 0) in Hle.
      change (nth (S j) (0 :: Torch.softmax (b :: rest)) 0)
        with (nth j (Torch.softmax (b :: rest)) 0) in Hle.
      rewrite !softmax_nth in Hle by (simpl in Hw |- *; lia).
      assert (HS : 0 < Torch.sum (map exp (b :: rest)))
        by (apply TorchFacts.exp_sum_pos; discriminate).
      apply exp_increasing in Hlt.
      apply (Rmult_lt_compat_r (/ Torch.sum (map exp (b :: rest)))) in Hlt;
        [|now apply Rinv_0_lt_compat].
      unfold Rdiv in Hle. lra.
Qed.

End SuggestFacts.

End PredictionFacts.

(** ** The tokens of [csv-extract.py] *)

Module CsvExtractFacts.
Import Python CsvExtract.

Section TokenizeFacts.

Variable is_word : N -> bool.

Lemma forallb_rev (l : str) :
  forallb is_word (rev l) = forallb is_word l.
Proof.
  induction l as [|c l IH]; simpl; [reflexivity|].
  rewrite forallb_app, IH. simpl. rewrite andb_true_r. apply andb_comm.
Qed.

Lemma findall_words_concat (run line : str) :
  concat (findall_words is_word run line) = rev run ++ filter is_word line.
Proof.
  revert run. induction line as [|c line IH]; intros run; simpl.
  - destruct run; simpl; now rewrite ?app_nil_r.
  - destruct (is_word c).
    + rewrite IH. simpl. now rewrite <- app_assoc.
    + destruct run as [|r run]; simpl; rewrite IH; reflexivity.
Qed.

Lemma findall_words_word (run line : str) :
  forallb is_word run = true ->
  Forall (word is_word) (findall_words is_word run line).
Proof.
  revert run. induction line as [|c line IH]; intros run Hrun; simpl.
  - destruct run as [|r run]; constructor; [|constructor].
    split.
    + intros H. apply (f_equal (@length N)) in H.
      rewrite length_rev in H. discriminate.
    + now rewrite forallb_rev.
  - destruct (is_word c) eqn:Hc.
    + apply IH. simpl. now rewrite Hc.
    + destruct run as [|r run].
      * apply IH. reflexivity.
      * constructor; [|apply IH; reflexivity].
        split.
        -- intros H. apply (f_equal (@length N)) in H.
           rewrite length_rev in H. discriminate.
        -- now rewrite forallb_rev.
Qed.

(** Reading on through word characters only adds them to the run. *)
Lemma findall_words_run (run token rest : str) :
  forallb is_word token = true ->
  findall_words is_word run (token ++ rest)
  = findall_words is_word (rev token ++ run) rest.
Proof.
  revert run. induction token as [|c token IH]; intros run Htoken;
    [reflexivity|].
  simpl in Htoken. apply andb_prop in Htoken as [Hc Htoken].
  simpl. rewrite Hc, IH by exact Htoken.
  now rewrite <- app_assoc.
Qed.

Lemma tokenize_join (sep : N) (tokens : list str) :
  is_word sep = false ->
  Forall (word is_word) tokens ->
  tokenize is_word (join [sep] tokens) = tokens.
Proof.
  intros Hsep. unfold tokenize.
  induction 1 as [|token tokens [Hne Hword] Htokens IH]; [reflexivity|].
  cbn [join]. destruct tokens as [|token' tokens].
  - rewrite <- (app_nil_r token) at 1.
    rewrite findall_words_run by exact Hword.
    rewrite app_nil_r. simpl.
    destruct (rev token) as [|r run] eqn:Hrev.
    + apply (f_equal (@rev N)) in Hrev. rewrite rev_involutive in Hrev.
      contradiction.
    + rewrite <- Hrev, rev_involutive. reflexivity.
  - rewrite findall_words_run by exact Hword.
    rewrite app_nil_r.
    change ([sep] ++ join [sep] (token' :: tokens))
      with (sep :: join [sep] (token' :: tokens)).
    cbn [findall_words]. rewrite Hsep.
    destruct (rev token) as [|r run] eqn:Hrev.
    + apply (f_equal (@rev N)) in Hrev. rewrite rev_involutive in Hrev.
      contradiction.
    + rewrite <- Hrev, rev_involutive. now rewrite IH.
Qed.

(** A character that is not a word character leaves no trace at the end
    of a line. *)
Lemma findall_words_trailing (run line : str) (c : N) :
  is_word c = false ->
  findall_words is_word run (line ++ [c]) = findall_words is_word run line.
Proof.
  intros Hc. revert run.
  induction line as [|d line IH]; intros run; simpl.
  - rewrite Hc. destruct run; reflexivity.
  - destruct (is_word d); [apply IH|].
    destruct run; rewrite IH; reflexivity.
Qed.

Lemma tokenize_trailing (line : str) (c : N) :
  is_word c = false ->
  tokenize is_word (line ++ [c]) = tokenize is_word line.
Proof. apply findall_words_trailing. Qed.

(** Every token [tokenize] returns has at least one character and word
    characters only, and the tokens put end to end are the word characters
    of the line in their order: none is lost, added or moved. *)
Theorem tokenize_words (line : str) :
  Forall (word is_word) (tokenize is_word line) /\
  concat (tokenize is_word line) = filter is_word line.
Proof.
  split.
  - apply findall_words_word. reflexivity.
  - apply (findall_words_concat [] line).
Qed.

(** When neither the space nor the newline is a word character, the line
    [main] writes for an entry holds the same tokens as the entry: running
    [tokenize] on it returns what [tokenize] returned for the entry. *)
Theorem tokenize_written_line (line : str) :
  is_word space = false ->
  is_word newline = false ->
  tokenize is_word (written_line is_word line) = tokenize is_word line.
Proof.
  intros Hspace Hnewline. unfold written_line.
  rewrite tokenize_trailing by exact Hnewline.
  apply tokenize_join; [exact Hspace|].
  apply findall_words_word. reflexivity.
Qed.

End TokenizeFacts.

End CsvExtractFacts.

(** ** The vocabulary: counting, ranking, caching *)

Module VocabularyFacts.
Import Python Vocabulary.

Lemma str_eqb_eq (a b : str) : str_eqb a b = true <-> a = b.
Proof.
  revert b. induction a as [|x a IH]; intros [|y b]; simpl;
    try (split; [discriminate | discriminate]); [tauto|].
  rewrite andb_true_iff, N.eqb_eq, IH.
  split; [intros [-> ->]; reflexivity | intros [= -> ->]; auto].
Qed.

Lemma str_eqb_refl (a : str) : str_eqb a a = true.
Proof. now apply str_eqb_eq. Qed.

Lemma str_eqb_neq (a b : str) : str_eqb a b = false <-> a <> b.
Proof.
  rewrite <- str_eqb_eq. destruct (str_eqb a b); split; congruence.
Qed.

Lemma tally_count_one (x w : str) (c : Counter) :
  tally (count_one x c) w
  = (tally c w + if str_eqb x w then 1 else 0)%nat.
Proof.
  unfold tally. induction c as [|[v n] c IH]; simpl.
  - destruct (str_eqb x w); reflexivity.
  - destruct (str_eqb v x) eqn:Hvx; simpl.
    + apply str_eqb_eq in Hvx. subst v.
      destruct (str_eqb x w); simpl; lia.
    + destruct (str_eqb v w) eqn:Hvw; simpl; [|exact IH].
      destruct (str_eqb x w) eqn:Hxw; [|lia].
      apply str_eqb_eq in Hvw, Hxw. subst.
      rewrite str_eqb_refl in Hvx. discriminate.
Qed.

Lemma keys_count_one (x : str) (c : Counter) :
  map fst (count_one x c)
  = if in_dec str_eq_dec x (map fst c) then map fst c
    else map fst c ++ [x].
Proof.
  induction c as [|[v n] c IH]; simpl; [reflexivity|].
  destruct (str_eqb v x) eqn:Hvx; simpl.
  - apply str_eqb_eq in Hvx. subst v.
    destruct (str_eq_dec x x); [reflexivity | contradiction].
  - apply str_eqb_neq in Hvx.
    destruct (str_eq_dec v x); [contradiction|].
    rewrite IH. destruct (in_dec str_eq_dec x (map fst c)); reflexivity.
Qed.

Lemma positive_count_one (x : str) (c : Counter) :
  Forall (fun entry => (1 <= snd entry)%nat) c ->
  Forall (fun entry => (1 <= snd entry)%nat) (count_one x c).
Proof.
  induction 1 as [|[v n] c Hn Hc IH]; simpl.
  - repeat constructor.
  - destruct (str_eqb v x); constructor; simpl in *; auto; lia.
Qed.

Lemma counted_nil : counted [] [].
Proof.
  repeat split; try constructor; simpl; tauto.
Qed.

Lemma counted_step (c : Counter) (words : list str) (x : str) :
  counted c words -> counted (count_one x c) (words ++ [x]).
Proof.
  intros (Hnd & Hpos & Htally & Hkeys).
  split; [|split; [|split]].
  - rewrite keys_count_one.
    destruct (in_dec str_eq_dec x (map fst c)) as [Hin|Hout]; [exact Hnd|].
    apply NoDup_app; [exact Hnd | repeat constructor; simpl; tauto |].
    intros w Hw [<-|[]]. contradiction.
  - apply positive_count_one, Hpos.
  - intros w. rewrite tally_count_one, Htally, count_occ_app. simpl.
    destruct (str_eq_dec x w) as [->|Hne].
    + now rewrite str_eqb_refl.
    + apply str_eqb_neq in Hne. now rewrite Hne.
  - intros w. rewrite keys_count_one, in_app_iff, <- Hkeys. simpl.
    destruct (in_dec str_eq_dec x (map fst c)) as [Hin|Hout].
    + split; [tauto|]. intros [Hw|[<-|[]]]; [exact Hw | exact Hin].
    + rewrite in_app_iff. simpl. tauto.
Qed.

Lemma counted_update (c : Counter) (seen words : list str) :
  counted c seen -> counted (update c words) (seen ++ words).
Proof.
  unfold update. revert c seen.
  induction words as [|x words IH]; intros c seen Hc; simpl.
  - now rewrite app_nil_r.
  - replace (seen ++ x :: words) with ((seen ++ [x]) ++ words)
      by (now rewrite <- app_assoc).
    apply IH, counted_step, Hc.
Qed.

Lemma counted_lines (lines : list str) :
  counted (count_lines lines)
          (flat_map (fun line => split line space) lines).
Proof.
  unfold count_lines.
  enough (H : forall c seen,
             counted c seen ->
             counted (fold_left (fun counter line =>
                                   update counter (split line space)) lines c)
                     (seen ++ flat_map (fun line => split line space) lines))
    by (apply (H [] []), counted_nil).
  induction lines as [|line lines IH]; intros c seen Hc; simpl.
  - now rewrite app_nil_r.
  - rewrite app_assoc. apply IH, counted_update, Hc.
Qed.

Lemma insert_by_count_perm (x : str * nat) (l : Counter) :
  Permutation (insert_by_count x l) (x :: l).
Proof.
  induction l as [|y l IH]; simpl; [reflexivity|].
  destruct (snd x <? snd y)%nat; [|reflexivity].
  rewrite IH. apply perm_swap.
Qed.

Lemma ranked_perm (c : Counter) : Permutation (ranked c) c.
Proof.
  induction c as [|x c IH]; simpl; [reflexivity|].
  rewrite insert_by_count_perm. now constructor.
Qed.

Lemma insert_by_count_sorted (x : str * nat) (l : Counter) :
  Sorted (fun a b => (snd b <= snd a)%nat) l ->
  Sorted (fun a b => (snd b <= snd a)%nat) (insert_by_count x l).
Proof.
  induction l as [|y l IH]; simpl; intros Hs.
  - repeat constructor.
  - destruct (Nat.ltb_spec (snd x) (snd y)) as [Hlt|Hge].
    + inversion Hs as [|? ? Hs' Hhd]; subst.
      constructor; [auto|].
      destruct l as [|z l]; simpl in *.
      * constructor. lia.
      * destruct (Nat.ltb_spec (snd x) (snd z)); constructor.
        -- now inversion Hhd.
        -- lia.
    + constructor; [assumption|]. constructor. exact Hge.
Qed.

Lemma ranked_sorted (c : Counter) :
  StronglySorted (fun a b => (snd b <= snd a)%nat) (ranked c).
Proof.
  apply Sorted_StronglySorted; [intros a b d Hab Hbd; lia|].
  induction c as [|x c IH]; simpl; [constructor|].
  apply insert_by_count_sorted, IH.
Qed.

Lemma StronglySorted_firstn {A} (R : A -> A -> Prop) (n : nat) (l : list A) :
  StronglySorted R l -> StronglySorted R (firstn n l).
Proof.
  intros Hs. revert n. induction Hs as [|x l Hs IH Hall]; intros [|n]; simpl;
    try constructor.
  - apply IH.
  - rewrite Forall_forall in *. intros y Hy.
    apply Hall. eapply TorchMore.firstn_subset_in, Hy.
Qed.

Lemma StronglySorted_split {A} (R : A -> A -> Prop) (n : nat) (l : list A) x y :
  StronglySorted R l ->
  In x (firstn n l) -> In y (skipn n l) -> R x y.
Proof.
  intros Hs. revert n. induction Hs as [|z l Hs IH Hall]; intros n.
  - rewrite firstn_nil. contradiction.
  - destruct n as [|n]; simpl; [contradiction|].
    intros [<-|Hx] Hy.
    + rewrite Forall_forall in Hall. apply Hall.
      eapply TorchMore.skipn_subset_in, Hy.
    + eapply IH; eassumption.
Qed.

Lemma NoDup_firstn_keep {A} (n : nat) (l : list A) :
  NoDup l -> NoDup (firstn n l).
Proof.
  intros Hl. revert n. induction Hl as [|x l Hx Hl IH]; intros [|n]; simpl;
    try constructor.
  - intros Hin. apply Hx. eapply TorchMore.firstn_subset_in, Hin.
  - apply IH.
Qed.

Lemma tally_entry (c : Counter) (w : str) (n : nat) :
  NoDup (map fst c) -> In (w, n) c -> tally c w = n.
Proof.
  unfold tally. induction c as [|[v m] c IH]; simpl; [contradiction|].
  intros Hnd [[= -> ->]|Hin].
  - now rewrite str_eqb_refl.
  - inversion Hnd as [|? ? Hv Hnd']; subst.
    destruct (str_eqb v w) eqn:Hvw.
    + apply str_eqb_eq in Hvw. subst v.
      exfalso. apply Hv. apply in_map_iff. exists (w, n). auto.
    + apply IH; assumption.
Qed.

(** The entries of the counter of a text: each word once, with the number
    of its occurrences. *)
Lemma counter_entries (content : str) (w : str) (n : nat) :
  In (w, n) (count_lines (readlines content)) ->
  n = occurrences content w /\ (1 <= n)%nat.
Proof.
  intros Hin.
  destruct (counted_lines (readlines content)) as (Hnd & Hpos & Htally & _).
  split.
  - rewrite <- (tally_entry _ _ _ Hnd Hin). apply Htally.
  - rewrite Forall_forall in Hpos. apply (Hpos (w, n) Hin).
Qed.

Lemma counter_keys (content : str) (w : str) :
  (1 <= occurrences content w)%nat ->
  In (w, occurrences content w) (count_lines (readlines content)).
Proof.
  intros Hocc.
  destruct (counted_lines (readlines content)) as (Hnd & _ & Htally & Hkeys).
  assert (Hin : In w (map fst (count_lines (readlines content)))).
  { apply Hkeys. apply (count_occ_In str_eq_dec). exact Hocc. }
  apply in_map_iff in Hin as ([v n] & Hv & Hin). simpl in Hv. subst v.
  unfold occurrences, pieces.
  rewrite <- (Htally w), (tally_entry _ _ _ Hnd Hin). exact Hin.
Qed.

Lemma sorted_words (content : str) (l : Counter) :
  (forall e, In e l -> snd e = occurrences content (fst e)) ->
  StronglySorted (fun a b => (snd b <= snd a)%nat) l ->
  StronglySorted (fun a b => (occurrences content b <= occurrences content a)%nat)
                 (map fst l).
Proof.
  intros Hocc Hs. induction Hs as [|x l Hs IH Hall]; simpl; constructor.
  - apply IH. intros e He. apply Hocc. right. exact He.
  - apply Forall_map, Forall_forall. intros y Hy.
    rewrite Forall_forall in Hall. specialize (Hall y Hy).
    rewrite <- (Hocc x), <- (Hocc y); [exact Hall | right; exact Hy | left; reflexivity].
Qed.

(** With no cache and a text file to read, [get_vocabulary] returns at most
    [VOCAB_SIZE] words, each once, every one of them a piece of a line of
    the file, in the order of descending number of occurrences; a word that
    is left out occurs no more often than any word that is kept, and is
    left out only when [VOCAB_SIZE] words were kept.  The list is written
    to the cache file and nothing else is changed. *)
Theorem get_vocabulary_fresh
    (filename : string) (fs : Files) (content : str) :
  fs CACHE_FILE = None ->
  fs filename = Some (Text content) ->
  exists vocab,
    get_vocabulary filename fs
    = Returned vocab (write fs CACHE_FILE (Pickle vocab)) /\
    (length vocab <= VOCAB_SIZE)%nat /\
    NoDup vocab /\
    (forall w, In w vocab -> (1 <= occurrences content w)%nat) /\
    StronglySorted
      (fun a b => (occurrences content b <= occurrences content a)%nat)
      vocab /\
    (forall w w', In w vocab -> ~ In w' vocab ->
                  (occurrences content w' <= occurrences content w)%nat) /\
    (forall w', (1 <= occurrences content w')%nat -> ~ In w' vocab ->
                length vocab = VOCAB_SIZE).
Proof.
  intros Hcache Hfile. unfold get_vocabulary. rewrite Hcache, Hfile.
  unfold most_common. fold (ranked (count_lines (readlines content))).
  set (c := count_lines (readlines content)).
  eexists. split; [reflexivity|].
  destruct (counted_lines (readlines content)) as (Hnd & _ & _ & _).
  fold c in Hnd.
  assert (Hentry : forall e, In e (ranked c) ->
                             snd e = occurrences content (fst e)
                             /\ (1 <= snd e)%nat).
  { intros [w n] He. apply (Permutation_in _ (ranked_perm c)) in He.
    apply (counter_entries content w n He). }
  assert (Hleft : forall w', (1 <= occurrences content w')%nat ->
            ~ In w' (map fst (firstn VOCAB_SIZE (ranked c))) ->
            In (w', occurrences content w') (skipn VOCAB_SIZE (ranked c))).
  { intros w' Hocc Hout.
    pose proof (counter_keys content w' Hocc) as Hin. fold c in Hin.
    apply (Permutation_in _ (Permutation_sym (ranked_perm c))) in Hin.
    rewrite <- (firstn_skipn VOCAB_SIZE (ranked c)) in Hin.
    apply in_app_or in Hin as [Hin|Hin]; [|exact Hin].
    exfalso. apply Hout. apply in_map_iff.
    exists (w', occurrences content w'). auto. }
  split; [rewrite length_map, length_firstn; lia|].
  split.
  { rewrite <- firstn_map. apply NoDup_firstn_keep.
    eapply Permutation_NoDup; [|exact Hnd].
    apply Permutation_map, Permutation_sym, ranked_perm. }
  split.
  { intros w Hw. apply in_map_iff in Hw as ([v n] & Hv & Hin).
    simpl in Hv. subst v. apply TorchMore.firstn_subset_in in Hin.
    destruct (Hentry _ Hin) as [Hn Hpos]. simpl in Hn, Hpos. lia. }
  split.
  { apply sorted_words.
    - intros e He. apply Hentry. eapply TorchMore.firstn_subset_in, He.
    - apply StronglySorted_firstn, ranked_sorted. }
  split.
  { intros w w' Hw Hw'.
    destruct (Nat.eq_dec (occurrences content w') 0) as [->|Hocc]; [lia|].
    apply in_map_iff in Hw as ([v n] & Hv & Hin). simpl in Hv. subst v.
    pose proof (Hleft w' ltac:(lia) Hw') as Hrest.
    pose proof (StronglySorted_split _ VOCAB_SIZE _ _ _
                  (ranked_sorted c) Hin Hrest) as Hle.
    simpl in Hle.
    destruct (Hentry _ (TorchMore.firstn_subset_in _ _ _ Hin)) as [Hn _].
    simpl in Hn. lia. }
  intros w' Hocc Hw'.
  pose proof (Hleft w' Hocc Hw') as Hrest.
  rewrite length_map, length_firstn.
  assert (length (skipn VOCAB_SIZE (ranked c)) <> O).
  { destruct (skipn VOCAB_SIZE (ranked c)); [contradiction | discriminate]. }
  rewrite length_skipn in H. lia.
Qed.

(** Once a call has returned, every later call returns the same vocabulary
    and changes no file, whatever file name it is given and whatever the
    text files hold by then, as long as the cache file is left alone: the
    cache is never compared with the file it was computed from. *)
Theorem get_vocabulary_cached
    (filename : string) (fs fs' : Files) (vocab : list str)
    (filename' : string) (later : Files) :
  get_vocabulary filename fs = Returned vocab fs' ->
  later CACHE_FILE = fs' CACHE_FILE ->
  get_vocabulary filename' later = Returned vocab later.
Proof.
  unfold get_vocabulary at 1.
  destruct (fs CACHE_FILE) as [[cached|cached]|] eqn:Hcache.
  - discriminate.
  - intros [= <- <-] Hlater. unfold get_vocabulary.
    now rewrite Hlater, Hcache.
  - destruct (fs filename) as [[content|words]|]; try discriminate.
    intros [= <- <-] Hlater. unfold get_vocabulary. rewrite Hlater.
    unfold write. now rewrite String.eqb_refl.
Qed.

End VocabularyFacts.

(** ** From [csv-extract.py] to [get_vocabulary] *)

Module PreprocessingFacts.
Import Python CsvExtract Vocabulary.

(** Reading on through characters that are not the newline only adds them
    to the line being read. *)
Lemma lines_from_line (piece body rest : str) :
  ~ In newline body ->
  lines_from piece (body ++ newline :: rest)
  = (rev piece ++ body ++ [newline]) :: lines_from [] rest.
Proof.
  revert piece. induction body as [|c body IH]; intros piece Hbody.
  - simpl. reflexivity.
  - simpl. destruct (N.eqb_spec c newline) as [->|Hc].
    + exfalso. apply Hbody. left. reflexivity.
    + rewrite IH by (intros H; apply Hbody; right; exact H).
      simpl. now rewrite <- app_assoc.
Qed.

Lemma readlines_concat (bodies : list str) :
  Forall (fun body => ~ In newline body) bodies ->
  readlines (concat (map (fun body => body ++ [newline]) bodies))
  = map (fun body => body ++ [newline]) bodies.
Proof.
  unfold readlines. induction 1 as [|body bodies Hbody _ IH]; simpl;
    [reflexivity|].
  rewrite <- app_assoc. simpl.
  rewrite lines_from_line by exact Hbody.
  now rewrite IH.
Qed.

(** Reading on through characters that are not the separator only adds
    them to the piece being read. *)
Lemma split_from_piece (sep : N) (piece token rest : str) :
  ~ In sep token ->
  split_from sep piece (token ++ rest)
  = split_from sep (rev token ++ piece) rest.
Proof.
  revert piece. induction token as [|c token IH]; intros piece Htoken;
    [reflexivity|].
  simpl. destruct (N.eqb_spec c sep) as [->|Hc].
  - exfalso. apply Htoken. left. reflexivity.
  - rewrite IH by (intros H; apply Htoken; right; exact H).
    now rewrite <- app_assoc.
Qed.

Lemma split_join_newline (tokens : list str) :
  Forall (fun token => ~ In space token) tokens ->
  split (join [space] tokens ++ [newline]) space = attach_newline tokens.
Proof.
  unfold split. induction 1 as [|token tokens Htoken Htokens IH];
    [reflexivity|].
  cbn [join]. destruct tokens as [|token' tokens].
  - rewrite split_from_piece by exact Htoken.
    rewrite app_nil_r. simpl. now rewrite rev_involutive.
  - rewrite <- !app_assoc.
    rewrite split_from_piece by exact Htoken.
    rewrite app_nil_r.
    change ([space] ++ join [space] (token' :: tokens) ++ [newline])
      with (space :: (join [space] (token' :: tokens) ++ [newline])).
    cbn [split_from]. rewrite N.eqb_refl, rev_involutive, IH.
    reflexivity.
Qed.

Section Preprocessing.

Variable is_word : N -> bool.

Lemma word_without (c : N) (token : str) :
  is_word c = false -> word is_word token -> ~ In c token.
Proof.
  intros Hc [_ Hword] Hin.
  rewrite forallb_forall in Hword. specialize (Hword c Hin). congruence.
Qed.

Lemma join_without (c : N) (tokens : list str) :
  c <> space ->
  Forall (fun token => ~ In c token) tokens ->
  ~ In c (join [space] tokens).
Proof.
  intros Hc. induction 1 as [|token tokens Htoken _ IH]; [simpl; tauto|].
  cbn [join]. destruct tokens as [|token' tokens]; [exact Htoken|].
  rewrite !in_app_iff. simpl. intros [H|[[H|[]]|H]]; auto.
Qed.

(** When neither the space nor the newline is a word character, the words
    [get_vocabulary] counts in the file [csv-extract.py] writes are, entry
    by entry, the tokens of the entry, except that the last token of every
    entry is counted with the newline of its line attached; an entry
    without tokens is counted as the word that consists of the newline. *)
Theorem written_file_pieces (entries : list str) :
  is_word space = false ->
  is_word newline = false ->
  pieces (output is_word entries)
  = flat_map (fun entry => attach_newline (tokenize is_word entry)) entries.
Proof.
  intros Hspace Hnewline. unfold pieces, output.
  assert (Hwords : forall entry,
             Forall (word is_word) (tokenize is_word entry)).
  { intros entry. apply CsvExtractFacts.findall_words_word. reflexivity. }
  assert (Hlines :
    readlines (concat (map (written_line is_word) entries))
    = map (written_line is_word) entries).
  { unfold written_line.
    rewrite <- (map_map (fun entry => join [space] (tokenize is_word entry))
                        (fun body => body ++ [newline])).
    rewrite readlines_concat; [reflexivity|].
    apply Forall_map, Forall_forall. intros entry _.
    apply join_without; [discriminate|].
    eapply Forall_impl; [|apply Hwords].
    intros token. apply word_without, Hnewline. }
  rewrite Hlines. clear Hlines.
  induction entries as [|entry entries IH]; [reflexivity|].
  cbn [map flat_map]. rewrite IH. f_equal.
  unfold written_line. apply split_join_newline.
  eapply Forall_impl; [|apply Hwords].
  intros token. apply word_without, Hspace.
Qed.

End Preprocessing.

End PreprocessingFacts.

(** ** The added statements at small inputs *)

Module SampleFacts.
Import Example.

Lemma flat_topk3 :
  Torch.topk [0; 0; 0; 0] 3 = Some ([0; 0; 0], [0; 1; 2]%nat).
Proof.
  unfold Torch.topk.
  change (Torch.enumerate [0; 0; 0; 0])
    with [(0, 0%nat); (0, 1%nat); (0, 2%nat); (0, 3%nat)].
  rewrite TorchFacts.sort_desc_sorted_id; [reflexivity|].
  simpl. repeat constructor; lra.
Qed.

Lemma flat_softmax3 :
  Torch.softmax (map (fun v => v / 1) [0; 0; 0]) = [/ 3; / 3; / 3].
Proof.
  unfold Torch.softmax. simpl.
  replace (0 / 1) with 0 by lra. rewrite exp_0.
  replace (1 / (1 + (1 + (1 + 0)))) with (/ 3) by lra.
  reflexivity.
Qed.

Lemma flat_distribution3 input_ids cap budget :
  @distribution flat input_ids (mkConfig cap 3 1 budget)
  = Some ([/ 3; / 3; / 3], [0; 1; 2]%nat).
Proof.
  unfold distribution.
  change (@model flat input_ids) with [0; 0; 0; 0].
  cbn [top_k temperature]. rewrite flat_topk3.
  unfold Torch.scaled.
  destruct (Req_dec_T 1 0); [lra|].
  now rewrite flat_softmax3.
Qed.

Lemma flat_loss3 : confidence_loss [/ 3; / 3; / 3] = 0.
Proof. unfold confidence_loss. simpl. lra. Qed.

Lemma flat_step_draw3 input_ids cap budget tape calls :
  ~ budget - 0 < 0 ->
  @body flat input_ids
    (@mkProcess flat (mkConfig cap 3 1 budget) (0 :: tape) calls)
  = Next (input_ids ++ [0%nat])
      (@mkProcess flat (mkConfig cap 3 1 (budget - 0)) tape (S calls)).
Proof.
  intros Hge.
  erewrite body_draw by
    (first [apply flat_distribution3 | simpl; rewrite flat_loss3; exact Hge]).
  unfold multinomial, set_confidence, set_generator, count_call. simpl.
  destruct (Rlt_dec 0 (/ 3)); [|lra].
  simpl. now rewrite flat_loss3.
Qed.

(** A call with three candidates and room for one token. *)
Lemma flat_call3 :
  @generate_ids flat [97; 98]%nat (start 1 3 1 (/ 2))
  = Ok {| how_left := ConditionFalse;
          generated_ids := [0%nat];
          after := @mkProcess flat (mkConfig 1 3 1 (/ 2 - 0))
                     [0; 0; 0; 0; 0] 1 |}.
Proof.
  unfold generate_ids, start.
  cbn [config max_length length].
  change (S (Z.to_nat 1)) with 2%nat.
  erewrite while_loop_next;
    [ | simpl; lia | apply flat_step_draw3; lra ].
  rewrite while_loop_stop by (simpl; lia). reflexivity.
Qed.

(** A call with four candidates and room for one token. *)
Lemma flat_call1 :
  @generate_ids flat [97; 98]%nat (start 1 4 1 (/ 2))
  = Ok {| how_left := ConditionFalse;
          generated_ids := [0%nat];
          after := @mkProcess flat (mkConfig 1 4 1 (/ 2 - 7 / 16))
                     [0; 0; 0; 0; 0] 1 |}.
Proof.
  unfold generate_ids, start.
  cbn [config max_length length].
  change (S (Z.to_nat 1)) with 2%nat.
  erewrite while_loop_next;
    [ | simpl; lia | apply ExampleFacts.flat_step_draw; lra ].
  rewrite while_loop_stop by (simpl; lia). reflexivity.
Qed.

Lemma generate_few_candidates_witness :
  (1 <= top_k (config (start 1 3 1 (/ 2))) <= 3)%Z /\
  confidence (mkConfig 1 3 1 (/ 2 - 0))
  = confidence (config (start 1 3 1 (/ 2))).
Proof.
  assert (Hk : (1 <= top_k (config (start 1 3 1 (/ 2))) <= 3)%Z)
    by (simpl; lia).
  split; [exact Hk|].
  exact (proj1 (@generate_few_candidates flat _ _ _ Hk flat_call3)).
Defined.

Lemma generate_full_length_witness :
  (0 <= max_length (config (start 1 4 1 (/ 2))))%Z /\
  (ConditionFalse = ConditionFalse <-> Z.of_nat 1 = 1%Z).
Proof.
  assert (Hmax : (0 <= max_length (config (start 1 4 1 (/ 2))))%Z)
    by (simpl; lia).
  split; [exact Hmax|].
  exact (@generate_full_length flat _ _ _ Hmax flat_call1).
Defined.

Lemma generate_budget_exit_witness :
  0 <= confidence (config (start 5 4 1 (/ 2))) /\
  (BudgetBreak = BudgetBreak <-> / 2 - 7 / 16 - 7 / 16 < 0).
Proof.
  assert (Hpos : 0 <= confidence (config (start 5 4 1 (/ 2))))
    by (simpl; lra).
  split; [exact Hpos|].
  exact (@generate_budget_exit flat _ _ _ Hpos ExampleFacts.flat_first_call).
Defined.

Lemma generate_model_runs_witness :
  @generate_ids flat [97; 98]%nat (start 5 4 1 (/ 2))
  = Ok {| how_left := BudgetBreak;
          generated_ids := [0%nat];
          after := @mkProcess flat (mkConfig 5 4 1 (/ 2 - 7 / 16 - 7 / 16))
                     [0; 0; 0; 0; 0] 2 |} /\
  2%nat = (0 + 2)%nat.
Proof.
  split; [exact ExampleFacts.flat_first_call|].
  exact (@generate_model_runs flat _ _ _ ExampleFacts.flat_first_call).
Defined.

Lemma generate_draws_witness :
  @generate_ids flat [97; 98]%nat (start 5 4 1 (/ 2))
  = Ok {| how_left := BudgetBreak;
          generated_ids := [0%nat];
          after := @mkProcess flat (mkConfig 5 4 1 (/ 2 - 7 / 16 - 7 / 16))
                     [0; 0; 0; 0; 0] 2 |} /\
  [0; 0; 0; 0; 0] = @advance flat [0; 0; 0; 0; 0; 0].
Proof.
  split; [exact ExampleFacts.flat_first_call|].
  exact (@generate_draws flat _ _ _ ExampleFacts.flat_first_call).
Defined.

Lemma generate_tokens_among_best_witness :
  @generate_ids flat [97; 98]%nat (start 5 4 1 (/ 2))
  = Ok {| how_left := BudgetBreak;
          generated_ids := [0%nat];
          after := @mkProcess flat (mkConfig 5 4 1 (/ 2 - 7 / 16 - 7 / 16))
                     [0; 0; 0; 0; 0] 2 |} /\
  among_best [0; 0; 0; 0] 4 0.
Proof.
  split; [exact ExampleFacts.flat_first_call|].
  exact (@generate_tokens_among_best flat [97; 98]%nat _ _ [] 0%nat []
           ExampleFacts.flat_first_call eq_refl).
Defined.

Lemma flat_exhausted :
  @generate_ids flat [97; 98]%nat (start 5 4 1 (- 1))
  = Ok {| how_left := BudgetBreak;
          generated_ids := [];
          after := @mkProcess flat (mkConfig 5 4 1 (- 1 - 7 / 16))
                     [0; 0; 0; 0; 0; 0] 1 |}.
Proof. apply ExampleFacts.flat_exhausted_call; [lia | lra]. Qed.

Lemma generate_after_exhaustion_witness :
  confidence (config (start 5 4 1 (- 1))) < 0 /\
  - 1 - 7 / 16 < 0.
Proof.
  assert (Hneg : confidence (config (start 5 4 1 (- 1))) < 0)
    by (simpl; lra).
  split; [exact Hneg|].
  exact (proj2 (proj2 (proj2
           (@generate_after_exhaustion flat _ _ _ Hneg flat_exhausted)))).
Defined.

End SampleFacts.

Module OtherSampleFacts.
Import Samples.

Lemma three_scores_rows (x : list string) :
  forall row, In row (three_scores x) -> (2 <= length row)%nat.
Proof. intros row [<-|[]]. simpl. lia. Qed.

Lemma unknown_word_masked_witness :
  (forall row, In row (three_scores ["a"%string]) -> (2 <= length row)%nat) /\
  Prediction.get_prediction_probs three_scores ["a"%string]
  = [Some (0 :: Torch.softmax [0; 0])].
Proof.
  split; [exact (three_scores_rows ["a"%string])|].
  exact (proj1 (PredictionFacts.unknown_word_masked three_scores
                  ["a"%string] (three_scores_rows ["a"%string]))).
Defined.

Lemma softmax_halves : Torch.softmax [0; 0] = [/ 2; / 2].
Proof.
  unfold Torch.softmax. simpl. rewrite exp_0.
  replace (1 / (1 + (1 + 0))) with (/ 2) by lra. reflexivity.
Qed.

Lemma topk_halves :
  Torch.topk [0; / 2; / 2] 1 = Some ([/ 2], [1%nat]).
Proof.
  unfold Torch.topk, Torch.sort_desc, Torch.enumerate. simpl.
  destruct (Rlt_dec (/ 2) (/ 2)) as [H|_]; [lra|].
  simpl. destruct (Rlt_dec 0 (/ 2)) as [_|H]; [|lra].
  simpl. destruct (Rlt_dec 0 (/ 2)) as [_|H]; [|lra].
  reflexivity.
Qed.

Lemma three_scores_suggestion :
  Prediction.suggested_indices three_scores whole 1 "a" = Some [1%nat].
Proof.
  unfold Prediction.suggested_indices, Prediction.tokens_from_sentence,
    Prediction.get_prediction_probs, three_scores, whole.
  cbn [map rev app].
  rewrite PredictionFacts.masked_row, softmax_halves.
  unfold Prediction.top_k. now rewrite topk_halves.
Qed.

Lemma suggestions_are_known_words_witness :
  (forall row, In row (three_scores (whole "a")) -> length row = 3%nat) /\
  (1 < Z.of_nat 3)%Z /\
  Prediction.suggested_indices three_scores whole 1 "a" = Some [1%nat] /\
  Forall (fun i => (1 <= i < 3)%nat) [1%nat].
Proof.
  assert (Hrows : forall row, In row (three_scores (whole "a")) ->
                              length row = 3%nat)
    by (intros row [<-|[]]; reflexivity).
  assert (Hk : (1 < Z.of_nat 3)%Z) by lia.
  split; [exact Hrows|]. split; [exact Hk|].
  split; [exact three_scores_suggestion|].
  exact (proj1 (proj2 (PredictionFacts.suggestions_are_known_words
                         three_scores whole 1 "a" 3 [1%nat]
                         Hrows Hk three_scores_suggestion))).
Defined.

Lemma tokenize_written_line_witness :
  ascii_word Python.space = false /\
  ascii_word Python.newline = false /\
  CsvExtract.tokenize ascii_word
    (CsvExtract.written_line ascii_word [104; 105; 33]%N)
  = CsvExtract.tokenize ascii_word [104; 105; 33]%N.
Proof.
  split; [reflexivity|]. split; [reflexivity|].
  exact (CsvExtractFacts.tokenize_written_line ascii_word [104; 105; 33]%N
           eq_refl eq_refl).
Defined.

Lemma get_vocabulary_fresh_witness :
  files Vocabulary.CACHE_FILE = None /\
  files "train.txt"%string
  = Some (Vocabulary.Text [97; 32; 98; 10; 97; 10]%N) /\
  exists vocab,
    Vocabulary.get_vocabulary "train.txt" files
    = Vocabulary.Returned vocab
        (Vocabulary.write files Vocabulary.CACHE_FILE (Vocabulary.Pickle vocab)) /\
    NoDup vocab.
Proof.
  split; [reflexivity|]. split; [reflexivity|].
  destruct (VocabularyFacts.get_vocabulary_fresh "train.txt" files
              [97; 32; 98; 10; 97; 10]%N eq_refl eq_refl)
    as (vocab & Hcall & _ & Hnodup & _).
  exists vocab. split; [exact Hcall | exact Hnodup].
Defined.

(** The vocabulary of the sample file: "a", then "b" and "a" with the
    newline of their lines. *)
Lemma files_vocabulary :
  Vocabulary.get_vocabulary "train.txt" files
  = Vocabulary.Returned [[97]; [98; 10]; [97; 10]]%N
      (Vocabulary.write files Vocabulary.CACHE_FILE
         (Vocabulary.Pickle [[97]; [98; 10]; [97; 10]]%N)).
Proof. reflexivity. Qed.

Lemma get_vocabulary_cached_witness :
  Vocabulary.get_vocabulary "train.txt" files
  = Vocabulary.Returned [[97]; [98; 10]; [97; 10]]%N
      (Vocabulary.write files Vocabulary.CACHE_FILE
         (Vocabulary.Pickle [[97]; [98; 10]; [97; 10]]%N)) /\
  Vocabulary.get_vocabulary "other.txt"
    (Vocabulary.write files Vocabulary.CACHE_FILE
       (Vocabulary.Pickle [[97]; [98; 10]; [97; 10]]%N))
  = Vocabulary.Returned [[97]; [98; 10]; [97; 10]]%N
      (Vocabulary.write files Vocabulary.CACHE_FILE
         (Vocabulary.Pickle [[97]; [98; 10]; [97; 10]]%N)).
Proof.
  split; [exact files_vocabulary|].
  exact (VocabularyFacts.get_vocabulary_cached "train.txt" files _ _
           "other.txt" _ files_vocabulary eq_refl).
Defined.

Lemma written_file_pieces_witness :
  ascii_word Python.space = false /\
  ascii_word Python.newline = false /\
  Vocabulary.pieces (CsvExtract.output ascii_word entries)
  = [[104; 105; 10]; [97]; [98; 10]]%N.
Proof.
  split; [reflexivity|]. split; [reflexivity|].
  exact (PreprocessingFacts.written_file_pieces ascii_word entries
           eq_refl eq_refl).
Defined.

End OtherSampleFacts.

(** ** [generate] with settings at the edge of their range *)

Section EdgeSettings.

Context {RT : Runtime}.

Lemma Sorted_map_rel {A B} (R : A -> A -> Prop) (R' : B -> B -> Prop)
    (f : A -> B) (l : list A) :
  (forall a b, R a b -> R' (f a) (f b)) ->
  Sorted R l -> Sorted R' (map f l).
Proof.
  intros Hf. induction 1 as [|x l Hs IH Hhd]; simpl; constructor; auto.
  destruct Hhd; simpl; constructor; auto.
Qed.

(** With a negative temperature the order of the candidates is turned
    round: the probabilities of a step ascend, and every entry of the slice
    [probabilities[:3]] that [confidence_loss] sums is at most as large as
    every entry behind the slice. *)
Theorem negative_temperature_ascends
    (input_ids : list nat) (c : Config)
    (probabilities : list R) (indices : list nat) :
  temperature c < 0 ->
  distribution input_ids c = Some (probabilities, indices) ->
  Sorted Rle probabilities /\
  (forall x y, In x (firstn 3 probabilities) ->
               In y (skipn 3 probabilities) -> x <= y).
Proof.
  intros Ht Hd.
  assert (Hasc : Sorted Rle probabilities).
  { revert Hd. unfold distribution.
    destruct (Torch.topk _ _) as [[values indices']|] eqn:Htop; [|discriminate].
    destruct (Torch.scaled _ _) as [scores|] eqn:Hsc; [|discriminate].
    intros [= <- <-].
    apply TorchFacts.topk_descending in Htop.
    apply TorchFacts.scaled_inv in Hsc as [-> _].
    destruct values as [|v values]; [constructor|].
    assert (Hpos : 0 < Torch.sum (map exp (map (fun v0 => v0 / temperature c)
                                               (v :: values))))
      by (apply TorchFacts.exp_sum_pos; discriminate).
    unfold Torch.softmax.
    apply (Sorted_map_rel Rle); [|].
    - intros a b Hab. apply Rmult_le_compat_r;
        [left; now apply Rinv_0_lt_compat|].
      destruct Hab as [Hlt| ->]; [left; now apply exp_increasing | right; reflexivity].
    - apply (Sorted_map_rel (fun a b => b <= a)); [|exact Htop].
      intros a b Hba. unfold Rdiv.
      pose proof (Rinv_lt_0_compat _ Ht) as Hinv. nra. }
  split; [exact Hasc|].
  apply Sorted_StronglySorted in Hasc; [|intros a b d Hab Hbd; lra].
  intros x y Hx Hy.
  apply (VocabularyFacts.StronglySorted_split Rle 3 probabilities x y Hasc Hx Hy).
Qed.

Lemma distribution_no_candidates input_ids c :
  top_k c = 0%Z -> distribution input_ids c = Some ([], []).
Proof.
  intros Hk. unfold distribution, Torch.topk. rewrite Hk.
  destruct (Z.ltb_spec (Z.of_nat (length (model input_ids))) 0); [lia|].
  reflexivity.
Qed.

Lemma confidence_loss_nil : confidence_loss [] = 1.
Proof. unfold confidence_loss. simpl. lra. Qed.

(** With [top_k] set to 0 no token is ever returned: every step charges
    the full loss of 1; a call with room for a step returns the empty
    continuation when that charge makes the confidence negative, and
    otherwise fails with torch's [RuntimeError] when it tries to draw from
    no candidates. *)
Theorem generate_no_candidates (input_ids : list nat) (w : Process) :
  top_k (config w) = 0%Z ->
  (0 < max_length (config w))%Z ->
  (confidence (config w) - 1 < 0 ->
   generate_ids input_ids w
   = Ok {| how_left := BudgetBreak;
           generated_ids := [];
           after := set_confidence (count_call w)
                      (confidence (config w) - 1) |}) /\
  (~ confidence (config w) - 1 < 0 ->
   generate_ids input_ids w = Raise RuntimeError).
Proof.
  intros Hk Hmax.
  pose proof (distribution_no_candidates input_ids (config w) Hk) as Hd.
  split; intros Hconf; unfold generate_ids.
  - rewrite (while_loop_break _ _ _ _ BudgetBreak input_ids
               (set_confidence (count_call w) (confidence (config w) - 1)));
      [now rewrite skipn_all | lia |].
    rewrite (body_budget _ _ _ _ Hd); rewrite confidence_loss_nil;
      [reflexivity | exact Hconf].
  - rewrite (while_loop_throw _ _ _ _ RuntimeError); [reflexivity | lia |].
    rewrite (body_draw _ _ _ _ Hd); rewrite confidence_loss_nil;
      [reflexivity | exact Hconf].
Qed.

End EdgeSettings.

Module EdgeSampleFacts.
Import Example.

Lemma negative_distribution :
  @distribution flat [97; 98]%nat (mkConfig 5 4 (- 1) (/ 2))
  = Some (Torch.softmax (map (fun v => v / - 1) [0; 0; 0; 0]),
          [0; 1; 2; 3]%nat).
Proof.
  unfold distribution.
  change (@model flat [97; 98]%nat) with [0; 0; 0; 0].
  cbn [top_k temperature]. rewrite ExampleFacts.flat_topk.
  unfold Torch.scaled.
  destruct (Req_dec_T (- 1) 0); [lra | reflexivity].
Qed.

Lemma negative_temperature_ascends_witness :
  temperature (mkConfig 5 4 (- 1) (/ 2)) < 0 /\
  Sorted Rle (Torch.softmax (map (fun v => v / - 1) [0; 0; 0; 0])).
Proof.
  assert (Ht : temperature (mkConfig 5 4 (- 1) (/ 2)) < 0) by (simpl; lra).
  split; [exact Ht|].
  exact (proj1 (@negative_temperature_ascends flat _ _ _ _ Ht
                  negative_distribution)).
Defined.

Lemma generate_no_candidates_witness :
  top_k (config (start 5 0 1 (/ 2))) = 0%Z /\
  (0 < max_length (config (start 5 0 1 (/ 2))))%Z /\
  / 2 - 1 < 0 /\
  @generate_ids flat [97; 98]%nat (start 5 0 1 (/ 2))
  = Ok {| how_left := BudgetBreak;
          generated_ids := [];
          after := set_confidence (count_call (start 5 0 1 (/ 2)))
                     (/ 2 - 1) |}.
Proof.
  assert (Hmax : (0 < max_length (config (start 5 0 1 (/ 2))))%Z)
    by (simpl; lia).
  assert (Hconf : confidence (config (start 5 0 1 (/ 2))) - 1 < 0)
    by (simpl; lra).
  split; [reflexivity|]. split; [exact Hmax|]. split; [exact Hconf|].
  exact (proj1 (@generate_no_candidates flat [97; 98]%nat
                  (start 5 0 1 (/ 2)) eq_refl Hmax) Hconf).
Defined.

End EdgeSampleFacts.
